(** * The DG field layer and the turbulence closures of the solver

    A shallow embedding of [src/field/dg.h] (index flattening macros, the
    reference gradient macro [DPSI], the in-place field expansion
    [DG::expand], the [forEachLgl] loop nests) and of
    [src/turbulence/turbulence.h] (the base [Turbulence_Model], the wall
    function of [KX_Model] and the sweep [setWallEddyMu] that calls it).

    Conventions.
    - The typedefs [Int] and [Scalar], the enum [ENTITY] and the class
      [MeshField] are declared in headers outside these two files.
      [Int] is the solver's unsigned 32-bit integer: the index macros
      compute in it, and every product and sum of [INDEX4] and [INDEX3]
      wraps around modulo [2^32] (module [Index]).  The counters and
      subscripts of [expand] are embedded in [Z]; the loop counter [int i]
      takes the value [-1] on exit, which is why [Z] and not [N] is used.
      In a pass of [expand] that returns, every subscript lies in
      [0, size) (lemma [pass_accesses_bounds]).
    - [Scalar] is kept abstract: the claims about it concern which factors
      are combined and which cells are written, not rounding.
    - A subscript outside the storage of a field, a division by zero and the
      use of a local that was never assigned are undefined behaviour; the
      embedding reports them as [Undefined]. *)

From Stdlib Require Import ZArith Lia.
From stdpp Require Import base tactics option list list_numbers.

Local Open Scope Z_scope.

(** ** Outcomes of a run *)

Inductive outcome (A : Type) : Type :=
| Done (a : A)
| Undefined
| OutOfFuel.
Arguments Done {A} a.
Arguments Undefined {A}.
Arguments OutOfFuel {A}.

Definition obind {A B : Type} (m : outcome A) (f : A -> outcome B) : outcome B :=
  match m with
  | Done a => f a
  | Undefined => Undefined
  | OutOfFuel => OutOfFuel
  end.

Global Instance outcome_ret : MRet outcome := @Done.
Global Instance outcome_bind : MBind outcome := fun A B f m => obind m f.

(** ** Index flattening ([INDEX4], [INDEX3]) *)

Module Index.

(** [Int]: an unsigned integer of 32 bits.  A value is a [Z] in
    [0, Int_modulus); the product or sum of two of them is reduced modulo
    [Int_modulus], as unsigned arithmetic does. *)
Definition Int_modulus : Z := 2 ^ 32.

Definition Int_wrap (z : Z) : Z := z mod Int_modulus.

Definition Int_mul (a b : Z) : Z := Int_wrap (a * b).

Definition Int_add (a b : Z) : Z := Int_wrap (a + b).

Infix "*I" := Int_mul (at level 40, left associativity).
Infix "+I" := Int_add (at level 50, left associativity).

Section Flatten.

(** [extern Int NPX,NPY,NPZ;] *)
Variables NPX NPY NPZ : Z.

(** [#define INDEX4(c_,i_,j_,k_)
      ((c_) * NPX * NPY * NPZ + (i_) * NPY * NPZ + (j_) * NPZ + (k_))] *)
Definition INDEX4 (c i j k : Z) : Z :=
  c *I NPX *I NPY *I NPZ +I i *I NPY *I NPZ +I j *I NPZ +I k.

(** [#define INDEX3(i_,j_,k_) ((i_) * NPY * NPZ + (j_) * NPZ + (k_))] *)
Definition INDEX3 (i j k : Z) : Z :=
  i *I NPY *I NPZ +I j *I NPZ +I k.

(** The flattening in the words of the spec (section 3), over the
    integers: the offset the macros denote as long as nothing wraps. *)
Definition offset4 (c i j k : Z) : Z :=
  c * NPX * NPY * NPZ + i * NPY * NPZ + j * NPZ + k.

Definition offset3 (i j k : Z) : Z :=
  i * NPY * NPZ + j * NPZ + k.

(** The tuples the macros are applied to: a component [c] below [NC] and a
    node of the [forEachLgl] loop nest. *)
Definition in_range3 (i j k : Z) : Prop :=
  0 <= i < NPX /\ 0 <= j < NPY /\ 0 <= k < NPZ.

Definition in_range4 (NC c i j k : Z) : Prop :=
  0 <= c < NC /\ in_range3 i j k.

(** Candidate inverse of [INDEX4], by successive division (not in the
    source; used to state that [INDEX4] is onto). *)
Definition unflatten4 (o : Z) : Z * Z * Z * Z :=
  (o / (NPX * NPY * NPZ), (o / (NPY * NPZ)) mod NPX, (o / NPZ) mod NPY, o mod NPZ).

End Flatten.
End Index.

(** ** The reference gradient of a tensor-product basis function ([DPSI]) *)

Module Basis.

(** [Vector(dpsi_j_0,dpsi_j_1,dpsi_j_2)]: three scalar components. *)
Record Vector (Scalar : Type) : Type :=
  mkVector { vec_0 : Scalar; vec_1 : Scalar; vec_2 : Scalar }.
Arguments mkVector {Scalar} _ _ _.
Arguments vec_0 {Scalar} _.
Arguments vec_1 {Scalar} _.
Arguments vec_2 {Scalar} _.

Section Dpsi.

Context {Scalar : Type}.

(** Product of two [Scalar]s, the [*] of the macro. *)
Variable smul : Scalar -> Scalar -> Scalar.
Infix "*s" := smul (at level 40, left associativity).

(** [extern Scalar **psi[3]; extern Scalar **dpsi[3];] read as
    [psi[dir][basis function][node]]. *)
Variables psi dpsi : Z -> Z -> Z -> Scalar.

(** [#define DPSI(i,j,k)]: the macro is expanded where [ii], [jj], [kk]
    name the basis function, and binds [dpsi_j]. *)
Definition DPSI (ii jj kk : Z) (i j k : Z) : Vector Scalar :=
  let dpsi_j_0 := dpsi 0 ii i *s psi 1 jj j *s psi 2 kk k in
  let dpsi_j_1 := psi 0 ii i *s dpsi 1 jj j *s psi 2 kk k in
  let dpsi_j_2 := psi 0 ii i *s psi 1 jj j *s dpsi 2 kk k in
  mkVector dpsi_j_0 dpsi_j_1 dpsi_j_2.

(** Component [m] of a vector, [m] in {0,1,2}. *)
Definition component (v : Vector Scalar) (m : Z) : Scalar :=
  if decide (m = 0) then vec_0 v else if decide (m = 1) then vec_1 v else vec_2 v.

(** The rule in the words of the spec (section 4.4): along direction [d]
    the factor is the derivative table when [d] is the direction [m] of
    differentiation and the value table otherwise. *)
Definition factor (m d : Z) (a b : Z) : Scalar :=
  if decide (d = m) then dpsi d a b else psi d a b.

Definition product_rule_component (ii jj kk i j k : Z) (m : Z) : Scalar :=
  factor m 0 ii i *s factor m 1 jj j *s factor m 2 kk k.

End Dpsi.
End Basis.

(** ** Mesh field storage *)

Module Field.
Section Storage.

Context {type : Type}.

(** [cF.size()] *)
Definition size (cF : list type) : Z := Z.of_nat (length cF).

(** [cF[idx]] read: the subscript operator has no bounds check, so a
    subscript outside [0, size) is undefined behaviour. *)
Definition subscript (cF : list type) (idx : Z) : outcome type :=
  if decide (0 <= idx) then
    match cF !! Z.to_nat idx with
    | Some v => Done v
    | None => Undefined
    end
  else Undefined.

(** [cF[idx] = v] *)
Definition assign (cF : list type) (idx : Z) (v : type) : outcome (list type) :=
  if decide (0 <= idx < size cF) then Done (<[Z.to_nat idx := v]> cF)
  else Undefined.

End Storage.
End Field.

(** ** Field expansion ([DG::expand]) *)

Module Expand.
Import Field.

(** The template parameter [entity].  [expand] names [CELL] and [FACET];
    [VERTEX] stands for a field over any other entity. *)
Inductive ENTITY : Type := CELL | FACET | VERTEX.

(** The order metadata read by [expand]: the globals [NP], [NPF] and
    [DG::NPMAT], set by the initialisation code. *)
Record order : Type := mkOrder { NP : Z; NPF : Z; NPMAT : Z }.


(** [if(entity == CELL) block = NP; else if(entity == FACET) block = NPF;]
    For another entity [block] is left unassigned. *)
Definition block_of (md : order) (entity : ENTITY) : option Z :=
  match entity with
  | CELL => Some (NP md)
  | FACET => Some (NPF md)
  | VERTEX => None
  end.

(** Accesses to the storage, in the order they happen (ghost state). *)
Inductive access : Type := Rd (idx : Z) | Wr (idx : Z).

Section Loops.

Context {type : Type}.

(** The field being rewritten together with the accesses made so far. *)
Record run : Type := mkRun { field : list type; trace : list access }.

Definition read (idx : Z) (st : run) : outcome (type * run) :=
  v ← subscript (field st) idx;
  mret (v, mkRun (field st) (trace st ++ [Rd idx])).

Definition write (idx : Z) (v : type) (st : run) : outcome run :=
  cF ← assign (field st) idx v;
  mret (mkRun cF (trace st ++ [Wr idx])).

(** [for(Int j = 0; j < block;j++) cF[i - j] = C;] with [trips] iterations
    left. *)
Fixpoint fill (trips : nat) (i j : Z) (C : type) (st : run) : outcome run :=
  match trips with
  | O => mret st
  | S trips' =>
      st' ← write (i - j) C st;
      fill trips' i (j + 1) C st'
  end.

(** [for(int i = cF.size() - 1;i >= 0;i -= block) { Int ii = i / block;
    type C = cF[ii]; ... }] entered with the current [i]. *)
Fixpoint sweep (fuel : nat) (block : Z) (i : Z) (st : run) : outcome run :=
  if decide (i < 0) then mret st
  else
    match fuel with
    | O => OutOfFuel
    | S fuel' =>
        if decide (block = 0) then Undefined
        else
          let ii := i / block in
          '(C, st1) ← read ii st;
          st2 ← fill (Z.to_nat block) i 0 C st1;
          sweep fuel' block (i - block) st2
    end.

(** [template<class type, ENTITY entity> void expand(const
    MeshField<type,entity>& cF)] *)
Definition expand (fuel : nat) (md : order) (entity : ENTITY) (cF : list type)
  : outcome run :=
  let st := mkRun cF [] in
  if decide (NPMAT md = 0) then mret st
  else
    match block_of md entity with
    | Some block => sweep fuel block (size cF - 1) st
    | None => if decide (size cF - 1 < 0) then mret st else Undefined
    end.

(** The storage left by a run, when there is one. *)
Definition result (r : outcome run) : option (list type) :=
  match r with
  | Done st => Some (field st)
  | _ => None
  end.

End Loops.

(** The accesses one pass is expected to make: element [e] is read at its
    packed position, then its [block] node slots are written from the last
    one down; elements are taken from the last one down. *)
Definition slot_writes (block : Z) (e : Z) : list access :=
  (fun j => Wr ((e + 1) * block - 1 - j)) <$> seqZ 0 block.

Fixpoint pass_accesses (block : Z) (n : nat) : list access :=
  match n with
  | O => []
  | S n' => Rd (Z.of_nat n') :: slot_writes block (Z.of_nat n') ++ pass_accesses block n'
  end.




End Expand.

(** ** Turbulence closures ([Turbulence_Model], [KX_Model]) *)

Module Turbulence.
Import Field.

(** [enum WallModel { NONE,STANDARD,LAUNDER };] *)
Inductive WallModel : Type := NONE | STANDARD | LAUNDER.

(** [enum Model { SMAGORNSKY,BALDWIN,KATO };] *)
Inductive Model : Type := SMAGORNSKY | BALDWIN | KATO.

(** A symmetric tensor: six independent components. *)
Record STensor (Scalar : Type) : Type :=
  mkSTensor { t_xx : Scalar; t_yy : Scalar; t_zz : Scalar;
              t_xy : Scalar; t_yz : Scalar; t_xz : Scalar }.
Arguments mkSTensor {Scalar} _ _ _ _ _ _.

(** The arithmetic of [Scalar] and [Vector] that the wall function uses;
    the operators live in the tensor header, outside these files. *)
Class Arith (Scalar Vector : Type) : Type := {
  s_zero : Scalar;                          (* Scalar(0) *)
  s_one : Scalar;                           (* 1 *)
  s_two : Scalar;                           (* 2 *)
  s_quarter : Scalar;                       (* Scalar(0.25) *)
  s_mul : Scalar -> Scalar -> Scalar;       (* a * b *)
  s_div : Scalar -> Scalar -> Scalar;       (* a / b *)
  s_sub : Scalar -> Scalar -> Scalar;       (* a - b *)
  s_pow : Scalar -> Scalar -> Scalar;       (* pow(a,b) *)
  s_sqrt : Scalar -> Scalar;                (* sqrt(a) *)
  s_mag : Scalar -> Scalar;                 (* mag(a) on a scalar *)
  v_mag : Vector -> Scalar;                 (* mag(v) *)
  v_unit : Vector -> Vector;                (* unit(v) *)
  v_dot : Vector -> Vector -> Scalar;       (* u & v *)
  v_sub : Vector -> Vector -> Vector;       (* u - v *)
  v_div : Vector -> Scalar -> Vector        (* v / a *)
}.

Section Models.

Context {Scalar Vector ParamList : Type} {arith : Arith Scalar Vector}.

(** Number of entries of a cell field (the mesh-wide size every
    [MeshField<type,CELL>] is allocated with). *)
Variable cell_count : nat.

(** [STensor(0)]: the one-argument constructor is declared in the tensor
    header, outside these files; it is taken to give every component the
    same value. *)
Definition STensor_of (s : Scalar) : STensor Scalar := mkSTensor s s s s s s.

(** The conversion of a value to a cell field, used by the two [return]
    statements below, is declared with [MeshField], outside these files; it
    is taken to store the value in every entry. *)
Definition uniform_field {type : Type} (v : type) : list type :=
  replicate cell_count v.

(** [struct Turbulence_Model] *)
Record Turbulence_Model : Type := mkTurbulence_Model {
  U : list Vector;
  F : list Scalar;
  rho : Scalar;
  nu : Scalar;
  Steady : bool;
  params : ParamList
}.

(** [virtual STensorCellField getReynoldsStress() { return STensor(0); }] *)
Definition getReynoldsStress (m : Turbulence_Model) : list (STensor Scalar) :=
  uniform_field (STensor_of s_zero).

(** [virtual ScalarCellField getK() { return Scalar(0); }] *)
Definition getK (m : Turbulence_Model) : list Scalar :=
  uniform_field s_zero.

(** [struct EddyViscosity_Model : public Turbulence_Model] *)
Record EddyViscosity_Model : Type := mkEddyViscosity_Model {
  base : Turbulence_Model;
  eddy_mu : list Scalar;
  modelType : Model;
  wallModel : WallModel
}.

(** [struct KX_Model : public EddyViscosity_Model] *)
Record KX_Model : Type := mkKX_Model {
  eddy : EddyViscosity_Model;
  Cmu : Scalar;
  SigmaK : Scalar;
  SigmaX : Scalar;
  C1x : Scalar;
  C2x : Scalar;
  k_UR : Scalar;
  x_UR : Scalar;
  k : list Scalar;
  x : list Scalar;
  Pk : list Scalar
}.

Definition set_eddy_mu (v : list Scalar) (m : KX_Model) : KX_Model :=
  let e := eddy m in
  mkKX_Model (mkEddyViscosity_Model (base e) v (modelType e) (wallModel e))
    (Cmu m) (SigmaK m) (SigmaX m) (C1x m) (C2x m) (k_UR m) (x_UR m)
    (k m) (x m) (Pk m).

Definition set_k (v : list Scalar) (m : KX_Model) : KX_Model :=
  mkKX_Model (eddy m) (Cmu m) (SigmaK m) (SigmaX m) (C1x m) (C2x m)
    (k_UR m) (x_UR m) v (x m) (Pk m).

Definition set_x (v : list Scalar) (m : KX_Model) : KX_Model :=
  mkKX_Model (eddy m) (Cmu m) (SigmaK m) (SigmaX m) (C1x m) (C2x m)
    (k_UR m) (x_UR m) (k m) v (Pk m).

Definition set_Pk (v : list Scalar) (m : KX_Model) : KX_Model :=
  mkKX_Model (eddy m) (Cmu m) (SigmaK m) (SigmaX m) (C1x m) (C2x m)
    (k_UR m) (x_UR m) (k m) (x m) v.

(** [class LawOfWall]: the constant [kappa] and the two profile functions
    called here. *)
Record LawOfWall : Type := mkLawOfWall {
  kappa : Scalar;
  getUstar : Scalar -> Scalar -> Scalar -> Scalar;
  getUp : Scalar -> Scalar -> Scalar -> Scalar
}.

(** The arrays of [namespace Mesh] used by the wall function: owner and
    neighbour cell of a face, face normals, cell centres. *)
Record MeshData : Type := mkMeshData {
  gFO : list Z;
  gFN : list Z;
  fN : list Vector;
  cC : list Vector
}.

Variable mesh : MeshData.

(** [virtual Scalar calcX(Scalar ustar,Scalar kappa,Scalar y) = 0;]
    supplied by the concrete two-equation model. *)
Variable calcX : KX_Model -> Scalar -> Scalar -> Scalar -> Scalar.

(** [virtual Scalar getCmu(Int i) { return Cmu; }] *)
Definition getCmu (m : KX_Model) (i : Z) : Scalar := Cmu m.

(** The first half of [applyWallFunction]: the friction velocity.  With
    [wallModel == NONE] neither branch assigns [ustar], and its use below
    is undefined. *)
Definition calc_ustar (low : LawOfWall) (c1 : Z) (y : Scalar) (m : KX_Model)
  : outcome (Scalar * KX_Model) :=
  match wallModel (eddy m) with
  | STANDARD =>
      U_c1 ← subscript (U (base (eddy m))) c1;
      let ustar := getUstar low (nu (base (eddy m))) (v_mag U_c1) y in
      k' ← assign (k m) c1 (s_div (s_pow ustar s_two) (s_sqrt (getCmu m c1)));
      mret (ustar, set_k k' m)
  | LAUNDER =>
      k_c1 ← subscript (k m) c1;
      mret (s_mul (s_pow (getCmu m c1) s_quarter) (s_sqrt k_c1), m)
  | NONE => Undefined
  end.

(** [virtual void applyWallFunction(Int f,LawOfWall& low)] *)
Definition applyWallFunction (f : Z) (low : LawOfWall) (m : KX_Model)
  : outcome KX_Model :=
  c1 ← subscript (gFO mesh) f;
  c2 ← subscript (gFN mesh) f;
  fN_f ← subscript (fN mesh) f;
  cC_c1 ← subscript (cC mesh) c1;
  cC_c2 ← subscript (cC mesh) c2;
  let y := s_mag (v_dot (v_unit fN_f) (v_sub cC_c1 cC_c2)) in
  '(ustar, m) ← calc_ustar low c1 y m;
  x' ← assign (x m) c1 (calcX m ustar (kappa low) y);
  let m := set_x x' m in
  let rho_ := rho (base (eddy m)) in
  let nu_ := nu (base (eddy m)) in
  let yp := s_div (s_mul ustar y) nu_ in
  let up := getUp low ustar nu_ yp in
  emu' ← assign (eddy_mu (eddy m)) c1
           (s_mul (s_mul rho_ nu_) (s_sub (s_div yp up) s_one));
  let m := set_eddy_mu emu' m in
  match wallModel (eddy m) with
  | LAUNDER =>
      U_c2 ← subscript (U (base (eddy m))) c2;
      U_c1 ← subscript (U (base (eddy m))) c1;
      let mag_dudy := v_mag (v_div (v_sub U_c2 U_c1) y) in
      let mag_dudy_log := s_div ustar (s_mul (kappa low) y) in
      emu_c1 ← subscript (eddy_mu (eddy m)) c1;
      Pk' ← assign (Pk m) c1 (s_mul (s_mul mag_dudy mag_dudy_log) emu_c1);
      mret (set_Pk Pk' m)
  | _ => mret m
  end.

(** Face [f] lies between the cells [c1] (owner) and [c2] (neighbour), and
    every array the wall function subscripts there has the entry: the
    normal [n_f], the centres [x1], [x2], the velocities [u1], [u2], the
    value [k1] of [k] at [c1], and a slot [c1] in [x], [eddy_mu], [Pk]. *)
Record wall_face (m : KX_Model) (f c1 c2 : nat)
    (n_f x1 x2 u1 u2 : Vector) (k1 : Scalar) : Prop := mkWall_face {
  wf_owner : gFO mesh !! f = Some (Z.of_nat c1);
  wf_neighbour : gFN mesh !! f = Some (Z.of_nat c2);
  wf_normal : fN mesh !! f = Some n_f;
  wf_centre1 : cC mesh !! c1 = Some x1;
  wf_centre2 : cC mesh !! c2 = Some x2;
  wf_U1 : U (base (eddy m)) !! c1 = Some u1;
  wf_U2 : U (base (eddy m)) !! c2 = Some u2;
  wf_k : k m !! c1 = Some k1;
  wf_x : (c1 < length (x m))%nat;
  wf_eddy_mu : (c1 < length (eddy_mu (eddy m)))%nat;
  wf_Pk : (c1 < length (Pk m))%nat
}.

(** The values the wall function computes at the wall cell: the wall
    distance, the friction velocity of either wall model, and the eddy
    viscosity that follows from a friction velocity. *)
Definition wall_y (n_f x1 x2 : Vector) : Scalar :=
  s_mag (v_dot (v_unit n_f) (v_sub x1 x2)).

Definition ustar_standard (low : LawOfWall) (m : KX_Model) (u1 : Vector) (y : Scalar)
  : Scalar :=
  getUstar low (nu (base (eddy m))) (v_mag u1) y.

Definition ustar_launder (m : KX_Model) (k1 : Scalar) : Scalar :=
  s_mul (s_pow (Cmu m) s_quarter) (s_sqrt k1).

Definition wall_eddy_mu (low : LawOfWall) (m : KX_Model) (ustar y : Scalar) : Scalar :=
  let rho_ := rho (base (eddy m)) in
  let nu_ := nu (base (eddy m)) in
  let yp := s_div (s_mul ustar y) nu_ in
  let up := getUp low ustar nu_ yp in
  s_mul (s_mul rho_ nu_) (s_sub (s_div yp up) s_one).

Definition wall_Pk (low : LawOfWall) (u1 u2 : Vector) (ustar y emu : Scalar) : Scalar :=
  s_mul (s_mul (v_mag (v_div (v_sub u2 u1) y)) (s_div ustar (s_mul (kappa low) y))) emu.

End Models.

(** An integer stand-in for [Scalar] and [Vector] (vectors of one
    component), used only to run the definitions on a sample wall face; it
    does not approximate floating point, and [Scalar(0.25)] has no integer
    counterpart. *)
Definition Z_Arith : Arith Z Z := {|
  s_zero := 0; s_one := 1; s_two := 2; s_quarter := 0;
  s_mul := Z.mul; s_div := Z.div; s_sub := Z.sub;
  s_pow := Z.pow; s_sqrt := Z.sqrt; s_mag := Z.abs;
  v_mag := Z.abs; v_unit := Z.sgn; v_dot := Z.mul; v_sub := Z.sub;
  v_div := Z.div
|}.

(** One wall face, number 0, between cell 0 and cell 1. *)
Definition sample_mesh : @MeshData Z := mkMeshData [0] [1] [1] [0; 1].

Definition sample_low : @LawOfWall Z :=
  mkLawOfWall 1 (fun nu_ u y => u + y) (fun ustar nu_ yp => 1).

Definition sample_model (w : WallModel) : @KX_Model Z Z unit :=
  mkKX_Model
    (mkEddyViscosity_Model (mkTurbulence_Model [2; 8] [] 1 1 true tt)
       [0; 0] SMAGORNSKY w)
    9 1 1 1 1 1 1 [4; 4] [0; 0] [0; 0].

Definition sample_calcX (m : @KX_Model Z Z unit) (ustar kappa_ y : Z) : Z :=
  ustar * kappa_ + y.

End Turbulence.

(** ** Loop nests over the nodes of an element ([forEachLgl]) *)

Module Lgl.
Section Nests.

Variables NPX NPY NPZ : Z.

(** [#define forEachLglX(i_) for(Int i_ = 0;i_ < NPX;i_++)] and its two
    siblings: the values the body is run with, in order. *)
Definition forEachLglX : list Z := seqZ 0 NPX.

Definition forEachLglY : list Z := seqZ 0 NPY.

Definition forEachLglZ : list Z := seqZ 0 NPZ.

(** [#define forEachLgl(i_,j_,k_)]: three nested loops, [i_] outermost. *)
Definition forEachLgl : list (Z * Z * Z) :=
  i ← seqZ 0 NPX; j ← seqZ 0 NPY; k ← seqZ 0 NPZ; [(i, j, k)].

(** [#define forEachLglXY(i_,j_)] *)
Definition forEachLglXY : list (Z * Z) :=
  i ← seqZ 0 NPX; j ← seqZ 0 NPY; [(i, j)].

(** [#define forEachLglXZ(i_,k_)] *)
Definition forEachLglXZ : list (Z * Z) :=
  i ← seqZ 0 NPX; k ← seqZ 0 NPZ; [(i, k)].

(** [#define forEachLglYZ(j_,k_)] *)
Definition forEachLglYZ : list (Z * Z) :=
  j ← seqZ 0 NPY; k ← seqZ 0 NPZ; [(j, k)].

End Nests.
End Lgl.

(** ** The sweep over the wall faces ([setWallEddyMu]) *)

Module WallLoop.
Import Field Turbulence.

Section Boundaries.

Context {Scalar Vector ParamList : Type} {arith : Arith Scalar Vector}.

(** [class BasicBCondition], declared with the mesh: the members that
    [setWallEddyMu] reads ([bdry] points to the list of faces). *)
Record BasicBCondition : Type := mkBasicBCondition {
  isWall : bool;
  fIndex : Z;
  bdry : list Z;
  low : @LawOfWall Scalar
}.

Section Generic.

(** The object [setWallEddyMu] is called on, with the override of the pure
    virtual [applyWallFunction] it dispatches to. *)
Variable Model : Type.
Variable applyWallFunction : Z -> @LawOfWall Scalar -> Model -> outcome Model.

(** [U.fIndex], the index of the field the model was built for. *)
Variable U_fIndex : Z.

(** [forEach(wall_faces,i) { applyWallFunction(wall_faces[i],low); }] *)
Fixpoint wall_faces_loop (wall_faces : list Z) (law : @LawOfWall Scalar) (m : Model)
  : outcome Model :=
  match wall_faces with
  | [] => mret m
  | f :: wall_faces' =>
      m' ← applyWallFunction f law m;
      wall_faces_loop wall_faces' law m'
  end.

(** [void setWallEddyMu()]: [forEach(AllBConditions,d)] with the two
    guards [bbc->isWall && (bbc->fIndex == U.fIndex)] and
    [wall_faces.size()]. *)
Fixpoint setWallEddyMu (AllBConditions : list BasicBCondition) (m : Model)
  : outcome Model :=
  match AllBConditions with
  | [] => mret m
  | bbc :: rest =>
      m' ← (if isWall bbc && bool_decide (fIndex bbc = U_fIndex) then
              let wall_faces := bdry bbc in
              if decide (size wall_faces <> 0)
              then wall_faces_loop wall_faces (low bbc) m
              else mret m
            else mret m);
      setWallEddyMu rest m'
  end.

End Generic.

Variable mesh : @MeshData Vector.
Variable calcX : @KX_Model Scalar Vector ParamList -> Scalar -> Scalar -> Scalar -> Scalar.

(** [setWallEddyMu] on a [KX_Model] object dispatches to
    [KX_Model::applyWallFunction]. *)
Definition KX_setWallEddyMu (U_fIndex : Z) (AllBConditions : list BasicBCondition)
    (m : @KX_Model Scalar Vector ParamList) : outcome (@KX_Model Scalar Vector ParamList) :=
  setWallEddyMu _ (applyWallFunction mesh calcX) U_fIndex AllBConditions m.

(** What a wall function leaves alone in a two-equation model: the base
    state, the two mode flags, every coefficient, and the size of the four
    fields it writes into. *)
Definition same_frame (m m' : @KX_Model Scalar Vector ParamList) : Prop :=
  base (eddy m') = base (eddy m)
  /\ modelType (eddy m') = modelType (eddy m)
  /\ wallModel (eddy m') = wallModel (eddy m)
  /\ (Cmu m', SigmaK m', SigmaX m', C1x m', C2x m', k_UR m', x_UR m')
     = (Cmu m, SigmaK m, SigmaX m, C1x m, C2x m, k_UR m, x_UR m)
  /\ length (k m') = length (k m)
  /\ length (x m') = length (x m)
  /\ length (Pk m') = length (Pk m)
  /\ length (eddy_mu (eddy m')) = length (eddy_mu (eddy m)).

(** The four turbulence fields have the same entry at cell [c]. *)
Definition same_at (c : nat) (m m' : @KX_Model Scalar Vector ParamList) : Prop :=
  k m' !! c = k m !! c
  /\ x m' !! c = x m !! c
  /\ Pk m' !! c = Pk m !! c
  /\ eddy_mu (eddy m') !! c = eddy_mu (eddy m) !! c.

(** Cell [c] owns a face of a wall boundary of the model's field. *)
Definition wall_owner (U_fIndex : Z) (AllBConditions : list BasicBCondition) (c : nat)
  : Prop :=
  exists bbc f,
    bbc ∈ AllBConditions /\ isWall bbc = true /\ fIndex bbc = U_fIndex
    /\ f ∈ bdry bbc /\ subscript (gFO mesh) f = Done (Z.of_nat c).

(** Every subscript the wall function makes at face [f] is in range. *)
Definition face_in_range (m : @KX_Model Scalar Vector ParamList) (f : Z) : Prop :=
  exists c1 c2 : nat,
    0 <= f
    /\ gFO mesh !! Z.to_nat f = Some (Z.of_nat c1)
    /\ gFN mesh !! Z.to_nat f = Some (Z.of_nat c2)
    /\ (Z.to_nat f < length (fN mesh))%nat
    /\ (c1 < length (cC mesh))%nat /\ (c2 < length (cC mesh))%nat
    /\ (c1 < length (U (base (eddy m))))%nat
    /\ (c2 < length (U (base (eddy m))))%nat
    /\ (c1 < length (k m))%nat /\ (c1 < length (x m))%nat
    /\ (c1 < length (Pk m))%nat /\ (c1 < length (eddy_mu (eddy m)))%nat.

End Boundaries.

(** A sample boundary list: an inlet, then the wall made of face 0. *)
Definition sample_boundaries : list (@BasicBCondition Z) :=
  [mkBasicBCondition false 7 [0] sample_low;
   mkBasicBCondition true 7 [0] sample_low].

End WallLoop.

(** * Properties *)

(** ** The flattening macros *)

Module IndexFacts.
Import Index.

Lemma Int_wrap_small z : 0 <= z < Int_modulus -> Int_wrap z = z.
Proof. intros Hz. unfold Int_wrap. apply Z.mod_small, Hz. Qed.

Lemma Int_mul_wrap_l a b : Int_wrap a *I b = Int_wrap (a * b).
Proof. unfold Int_mul, Int_wrap, Int_modulus. apply Z.mul_mod_idemp_l. lia. Qed.

Lemma Int_add_wrap a b : Int_wrap a +I Int_wrap b = Int_wrap (a + b).
Proof. unfold Int_add, Int_wrap, Int_modulus. symmetry. apply Z.add_mod. lia. Qed.

Lemma Int_add_wrap_l a b : Int_wrap a +I b = Int_wrap (a + b).
Proof. unfold Int_add, Int_wrap, Int_modulus. apply Z.add_mod_idemp_l. lia. Qed.

Section Flatten.

Variables NPX NPY NPZ : Z.

Local Abbreviation INDEX4 := (INDEX4 NPX NPY NPZ).
Local Abbreviation INDEX3 := (INDEX3 NPY NPZ).
Local Abbreviation offset4 := (offset4 NPX NPY NPZ).
Local Abbreviation offset3 := (offset3 NPY NPZ).
Local Abbreviation in_range3 := (in_range3 NPX NPY NPZ).
Local Abbreviation in_range4 := (in_range4 NPX NPY NPZ).
Local Abbreviation unflatten4 := (unflatten4 NPX NPY NPZ).

(** Wrapping at every step is wrapping once at the end. *)
Lemma INDEX4_wrap c i j k : INDEX4 c i j k = Int_wrap (offset4 c i j k).
Proof.
  unfold Index.INDEX4, Index.offset4.
  change (c *I NPX) with (Int_wrap (c * NPX)).
  change (i *I NPY) with (Int_wrap (i * NPY)).
  change (j *I NPZ) with (Int_wrap (j * NPZ)).
  rewrite !Int_mul_wrap_l, !Int_add_wrap, Int_add_wrap_l. reflexivity.
Qed.

Lemma INDEX3_wrap i j k : INDEX3 i j k = Int_wrap (offset3 i j k).
Proof.
  unfold Index.INDEX3, Index.offset3.
  change (i *I NPY) with (Int_wrap (i * NPY)).
  change (j *I NPZ) with (Int_wrap (j * NPZ)).
  rewrite !Int_mul_wrap_l, !Int_add_wrap, Int_add_wrap_l. reflexivity.
Qed.

Lemma offset4_horner c i j k :
  offset4 c i j k = ((c * NPX + i) * NPY + j) * NPZ + k.
Proof. unfold Index.offset4. ring. Qed.

Lemma offset3_horner i j k : offset3 i j k = (i * NPY + j) * NPZ + k.
Proof. unfold Index.offset3. ring. Qed.

Lemma offset4_offset3 c i j k :
  offset4 c i j k = c * NPX * NPY * NPZ + offset3 i j k.
Proof. unfold Index.offset4, Index.offset3. ring. Qed.

Lemma offset3_bounds i j k :
  in_range3 i j k -> 0 <= offset3 i j k < NPX * NPY * NPZ.
Proof.
  intros (Hi & Hj & Hk). rewrite offset3_horner.
  assert (0 <= i * NPY + j < NPX * NPY) by nia.
  nia.
Qed.

Lemma offset4_bounds NC c i j k :
  in_range4 NC c i j k -> 0 <= offset4 c i j k < NC * NPX * NPY * NPZ.
Proof.
  intros (Hc & Hr). apply offset3_bounds in Hr.
  rewrite offset4_offset3. nia.
Qed.

(** As long as the index space fits [Int], the macros do not wrap. *)
Lemma INDEX3_exact i j k :
  in_range3 i j k -> NPX * NPY * NPZ <= Int_modulus ->
  INDEX3 i j k = offset3 i j k.
Proof.
  intros Hr Hfit. apply offset3_bounds in Hr.
  rewrite INDEX3_wrap. apply Int_wrap_small. lia.
Qed.

Lemma INDEX4_exact NC c i j k :
  in_range4 NC c i j k -> NC * NPX * NPY * NPZ <= Int_modulus ->
  INDEX4 c i j k = offset4 c i j k.
Proof.
  intros Hr Hfit. apply offset4_bounds in Hr.
  rewrite INDEX4_wrap. apply Int_wrap_small. lia.
Qed.

(** Dividing the offset back recovers the tuple. *)
Lemma unflatten4_offset4 NC c i j k :
  in_range4 NC c i j k -> unflatten4 (offset4 c i j k) = (c, i, j, k).
Proof.
  intros (Hc & Hi & Hj & Hk). unfold Index.unflatten4.
  assert (Hk' : offset4 c i j k mod NPZ = k).
  { rewrite offset4_horner, Z.add_comm, Z.mod_add by lia. apply Z.mod_small; lia. }
  assert (Hdk : offset4 c i j k / NPZ = (c * NPX + i) * NPY + j).
  { rewrite offset4_horner, Z.add_comm, Z.div_add by lia.
    rewrite Z.div_small; lia. }
  assert (Hj' : (offset4 c i j k / NPZ) mod NPY = j).
  { rewrite Hdk, Z.add_comm, Z.mod_add by lia. apply Z.mod_small; lia. }
  assert (Hdj : offset4 c i j k / (NPY * NPZ) = c * NPX + i).
  { rewrite (Z.mul_comm NPY NPZ), <- Z.div_div by lia.
    rewrite Hdk, Z.add_comm, Z.div_add by lia. rewrite Z.div_small; lia. }
  assert (Hi' : (offset4 c i j k / (NPY * NPZ)) mod NPX = i).
  { rewrite Hdj, Z.add_comm, Z.mod_add by lia. apply Z.mod_small; lia. }
  assert (Hc' : offset4 c i j k / (NPX * NPY * NPZ) = c).
  { replace (NPX * NPY * NPZ) with ((NPY * NPZ) * NPX) by ring.
    rewrite <- Z.div_div by nia.
    rewrite Hdj, Z.add_comm, Z.div_add by lia. rewrite Z.div_small; lia. }
  rewrite Hk', Hj', Hi', Hc'. reflexivity.
Qed.

(** Every offset below the total is the image of its unflattening. *)
Lemma offset4_unflatten4 NC o :
  1 <= NPX -> 1 <= NPY -> 1 <= NPZ ->
  0 <= o < NC * NPX * NPY * NPZ ->
  let '(c, i, j, k) := unflatten4 o in
  in_range4 NC c i j k /\ offset4 c i j k = o.
Proof.
  intros HX HY HZ Ho. unfold Index.unflatten4, Index.in_range4, Index.in_range3.
  pose proof (Z.mod_pos_bound (o / (NPY * NPZ)) NPX ltac:(lia)).
  pose proof (Z.mod_pos_bound (o / NPZ) NPY ltac:(lia)).
  pose proof (Z.mod_pos_bound o NPZ ltac:(lia)).
  assert (0 <= o / (NPX * NPY * NPZ) < NC).
  { split; [apply Z.div_pos; nia|].
    apply Z.div_lt_upper_bound; nia. }
  repeat split; try lia.
  rewrite offset4_horner.
  pose proof (Z.div_mod o NPZ ltac:(lia)) as E1.
  pose proof (Z.div_mod (o / NPZ) NPY ltac:(lia)) as E2.
  pose proof (Z.div_mod (o / (NPY * NPZ)) NPX ltac:(lia)) as E3.
  assert (E4 : o / NPZ / NPY = o / (NPY * NPZ)).
  { rewrite Z.div_div by lia. f_equal. ring. }
  assert (E5 : o / (NPY * NPZ) / NPX = o / (NPX * NPY * NPZ)).
  { rewrite Z.div_div by nia. f_equal. ring. }
  rewrite E4 in E2. rewrite E5 in E3.
  set (q3 := o / (NPX * NPY * NPZ)) in *.
  set (q2 := o / (NPY * NPZ)) in *.
  set (q1 := o / NPZ) in *.
  set (r3 := q2 mod NPX) in *.
  set (r2 := q1 mod NPY) in *.
  set (r1 := o mod NPZ) in *.
  assert (Eq3 : q3 * NPX + r3 = q2) by lia.
  rewrite Eq3.
  assert (Eq2 : q2 * NPY + r2 = q1) by lia.
  rewrite Eq2. lia.
Qed.

Lemma offset4_inj NC c i j k c' i' j' k' :
  in_range4 NC c i j k -> in_range4 NC c' i' j' k' ->
  offset4 c i j k = offset4 c' i' j' k' ->
  (c, i, j, k) = (c', i', j', k').
Proof.
  intros H H' E.
  rewrite <- (unflatten4_offset4 NC c i j k H).
  rewrite <- (unflatten4_offset4 NC c' i' j' k' H').
  now rewrite E.
Qed.

(** C2 (amended). For node counts [NPX], [NPY], [NPZ >= 1] and [NC >= 1]
    components whose index space fits [Int], that is
    [NC*NPX*NPY*NPZ <= 2^32], [INDEX4] maps the in-range tuples
    [(c,i,j,k)] one-to-one onto the offsets [0 .. NC*NPX*NPY*NPZ - 1], and
    it is row-major with [k] fastest: within the range, one step in [k]
    moves the offset by 1, one step in [j] by [NPZ], one step in [i] by
    [NPY*NPZ] and one step in [c] by [NPX*NPY*NPZ]. *)
Theorem INDEX4_bijection (NC : Z) :
  1 <= NPX -> 1 <= NPY -> 1 <= NPZ -> 1 <= NC ->
  NC * NPX * NPY * NPZ <= Int_modulus ->
  (forall c i j k, in_range4 NC c i j k ->
     0 <= INDEX4 c i j k < NC * NPX * NPY * NPZ) /\
  (forall c i j k c' i' j' k',
     in_range4 NC c i j k -> in_range4 NC c' i' j' k' ->
     INDEX4 c i j k = INDEX4 c' i' j' k' ->
     (c, i, j, k) = (c', i', j', k')) /\
  (forall o, 0 <= o < NC * NPX * NPY * NPZ ->
     exists c i j k, in_range4 NC c i j k /\ INDEX4 c i j k = o) /\
  (forall c i j k, in_range4 NC c i j k ->
     (k + 1 < NPZ -> INDEX4 c i j (k + 1) = INDEX4 c i j k + 1) /\
     (j + 1 < NPY -> INDEX4 c i (j + 1) k = INDEX4 c i j k + NPZ) /\
     (i + 1 < NPX -> INDEX4 c (i + 1) j k = INDEX4 c i j k + NPY * NPZ) /\
     (c + 1 < NC -> INDEX4 (c + 1) i j k = INDEX4 c i j k + NPX * NPY * NPZ)).
Proof.
  intros HX HY HZ HC Hfit. split; [|split; [|split]].
  - intros c i j k Hr. rewrite (INDEX4_exact NC) by assumption.
    apply offset4_bounds, Hr.
  - intros c i j k c' i' j' k' Hr Hr'.
    rewrite (INDEX4_exact NC c i j k), (INDEX4_exact NC c' i' j' k') by assumption.
    apply (offset4_inj NC); assumption.
  - intros o Ho.
    pose proof (offset4_unflatten4 NC o HX HY HZ Ho) as Hu.
    destruct (unflatten4 o) as [[[c i] j] k]. destruct Hu as (Hr & Ho').
    exists c, i, j, k. split; [exact Hr|].
    rewrite (INDEX4_exact NC) by assumption. exact Ho'.
  - intros c i j k Hr. pose proof Hr as (Hc & Hi & Hj & Hk).
    rewrite (INDEX4_exact NC c i j k) by assumption.
    repeat split; intros Hstep;
      (rewrite (INDEX4_exact NC);
       [unfold Index.offset4; ring
       | unfold Index.in_range4, Index.in_range3; lia
       | exact Hfit]).
Qed.

(** C8 (amended). For in-range indices of an index space that fits [Int]
    ([NC*NPX*NPY*NPZ <= 2^32]), [INDEX4(c,i,j,k)] is [INDEX3(i,j,k)]
    shifted by [c] whole strides of [NPX*NPY*NPZ]; [INDEX3] stays below one
    stride, so component [c] occupies the slab [c*S .. (c+1)*S - 1] and the
    slabs of two different components share no offset. *)
Theorem INDEX4_component_slab (NC c i j k : Z) :
  in_range4 NC c i j k ->
  NC * NPX * NPY * NPZ <= Int_modulus ->
  INDEX4 c i j k = c * NPX * NPY * NPZ + INDEX3 i j k /\
  0 <= INDEX3 i j k < NPX * NPY * NPZ /\
  c * (NPX * NPY * NPZ) <= INDEX4 c i j k < (c + 1) * (NPX * NPY * NPZ) /\
  (forall c' i' j' k', in_range4 NC c' i' j' k' -> c' <> c ->
     INDEX4 c' i' j' k' <> INDEX4 c i j k).
Proof.
  intros Hr Hfit. pose proof Hr as (Hc & Hr3).
  pose proof (offset3_bounds i j k Hr3) as Hb.
  assert (Hfit3 : NPX * NPY * NPZ <= Int_modulus) by nia.
  rewrite (INDEX4_exact NC c i j k Hr Hfit), (INDEX3_exact i j k Hr3 Hfit3).
  pose proof (offset4_offset3 c i j k) as E.
  split; [exact E|]. split; [exact Hb|]. split; [lia|].
  intros c' i' j' k' Hr' Hne. pose proof Hr' as (Hc' & Hr3').
  pose proof (offset3_bounds i' j' k' Hr3') as Hb'.
  rewrite (INDEX4_exact NC c' i' j' k' Hr' Hfit).
  rewrite E, (offset4_offset3 c' i' j' k').
  nia.
Qed.

End Flatten.

Lemma INDEX4_bijection_witness :
  (forall c i j k, in_range4 2 2 2 3 c i j k -> 0 <= INDEX4 2 2 2 c i j k < 3 * 2 * 2 * 2) /\
  INDEX4 2 2 2 2 1 0 1 = 21.
Proof.
  split.
  - apply (INDEX4_bijection 2 2 2 3); unfold Int_modulus; lia.
  - reflexivity.
Defined.

(** With 8388609 components of 8 x 8 x 8 nodes the index space has more
    than [2^32] offsets: node (0,0,1) of component 8388608 and node (0,0,1)
    of component 0 are both in range and both get offset 1. *)
Lemma INDEX4_bijection_counterexample :
  1 <= 8 /\ 1 <= 8388609
  /\ in_range4 8 8 8 8388609 8388608 0 0 1
  /\ in_range4 8 8 8 8388609 0 0 0 1
  /\ INDEX4 8 8 8 8388608 0 0 1 = INDEX4 8 8 8 0 0 0 1
  /\ (8388608, 0, 0, 1) <> (0, 0, 0, 1).
Proof.
  unfold in_range4, in_range3.
  repeat split; try lia; try reflexivity. discriminate.
Qed.

Lemma INDEX4_component_slab_witness :
  INDEX4 2 2 2 2 1 0 1 = 2 * 2 * 2 * 2 + INDEX3 2 2 1 0 1 /\
  2 * (2 * 2 * 2) <= INDEX4 2 2 2 2 1 0 1 < (2 + 1) * (2 * 2 * 2).
Proof.
  assert (H : in_range4 2 2 2 3 2 1 0 1).
  { unfold in_range4, in_range3. lia. }
  assert (Hfit : 3 * 2 * 2 * 2 <= Int_modulus).
  { unfold Int_modulus. lia. }
  destruct (INDEX4_component_slab 2 2 2 3 2 1 0 1 H Hfit) as (E & _ & B & _).
  split; [exact E | exact B].
Defined.

(** In the same index space, the offset of node (0,0,1) of component
    8388608 is 1, not [8388608*8*8*8 + INDEX3(0,0,1)], and it lies in the
    slab of component 0. *)
Lemma INDEX4_component_slab_counterexample :
  in_range4 8 8 8 8388609 8388608 0 0 1
  /\ INDEX4 8 8 8 8388608 0 0 1 = 1
  /\ 8388608 * 8 * 8 * 8 + INDEX3 8 8 0 0 1 = 4294967297
  /\ INDEX4 8 8 8 8388608 0 0 1 <> 8388608 * 8 * 8 * 8 + INDEX3 8 8 0 0 1
  /\ ~ (8388608 * (8 * 8 * 8) <= INDEX4 8 8 8 8388608 0 0 1)
  /\ 0 * (8 * 8 * 8) <= INDEX4 8 8 8 8388608 0 0 1 < (0 + 1) * (8 * 8 * 8).
Proof.
  unfold in_range4, in_range3.
  assert (E : INDEX4 8 8 8 8388608 0 0 1 = 1) by reflexivity.
  assert (E3 : INDEX3 8 8 0 0 1 = 1) by reflexivity.
  rewrite E, E3. repeat split; lia.
Qed.

End IndexFacts.

(** ** The reference gradient *)

Module BasisFacts.
Import Basis.

Section Dpsi.

Context {Scalar : Type}.
Variable smul : Scalar -> Scalar -> Scalar.
Variables psi dpsi : Z -> Z -> Z -> Scalar.

Lemma factor_same m a b : factor psi dpsi m m a b = dpsi m a b.
Proof. unfold factor. case_decide; [reflexivity | contradiction]. Qed.

Lemma factor_other m d a b : d <> m -> factor psi dpsi m d a b = psi d a b.
Proof. intros Hne. unfold factor. case_decide; [contradiction | reflexivity]. Qed.

(** C5. For each direction [m] in {0,1,2}, component [m] of the vector
    [dpsi_j] built by [DPSI] for basis function [(ii,jj,kk)] at node
    [(i,j,k)] is the product, taken in the order of the directions, of the
    derivative factor [dpsi[m]] along [m] and the value factors [psi] along
    the two other directions. *)
Theorem DPSI_product_rule (ii jj kk i j k m : Z) :
  0 <= m <= 2 ->
  component (DPSI smul psi dpsi ii jj kk i j k) m
  = product_rule_component smul psi dpsi ii jj kk i j k m.
Proof.
  intros Hm.
  assert (Hcases : m = 0 \/ m = 1 \/ m = 2) by lia.
  unfold product_rule_component.
  destruct Hcases as [-> | [-> | ->]].
  - rewrite factor_same, !factor_other by lia. reflexivity.
  - rewrite factor_same, !factor_other by lia. reflexivity.
  - rewrite factor_same, !factor_other by lia. reflexivity.
Qed.

End Dpsi.

(** A sample table: the value factor of direction [d] is [10*d + 2] and
    the derivative factor is [10*d + 3], whatever the indices. *)
Lemma DPSI_product_rule_witness :
  component (DPSI Z.mul (fun d _ _ => 10 * d + 2) (fun d _ _ => 10 * d + 3) 0 1 1 1 0 1) 1
  = 2 * 13 * 22.
Proof.
  rewrite (DPSI_product_rule Z.mul _ _ 0 1 1 1 0 1 1) by lia.
  reflexivity.
Defined.

End BasisFacts.

(** ** Storage accesses *)

Module FieldFacts.
Import Field.

Section Storage.

Context {type : Type}.
Implicit Types (cF : list type).

Lemma subscript_lookup cF (p : nat) v :
  cF !! p = Some v -> subscript cF (Z.of_nat p) = Done v.
Proof.
  intros Hv. unfold subscript.
  rewrite decide_True by lia. now rewrite Nat2Z.id, Hv.
Qed.

Lemma assign_in_range cF idx v :
  0 <= idx < size cF -> assign cF idx v = Done (<[Z.to_nat idx := v]> cF).
Proof. intros H. unfold assign. now rewrite decide_True. Qed.

Lemma size_insert cF (p : nat) v : size (<[p := v]> cF) = size cF.
Proof. unfold size. now rewrite length_insert. Qed.

Lemma assign_lookup cF (p : nat) v :
  (p < length cF)%nat -> assign cF (Z.of_nat p) v = Done (<[p := v]> cF).
Proof.
  intros Hp. rewrite assign_in_range by (unfold size; lia).
  now rewrite Nat2Z.id.
Qed.

End Storage.
End FieldFacts.

(** ** Field expansion *)

Module ExpandFacts.
Import Field Expand FieldFacts.

Section Loops.

Context {type : Type}.
Implicit Types (cF : list type) (st : @run type) (C : type).

(** Truncated division by the block size recovers the element. *)
Lemma div_block (b e p : Z) : 1 <= b -> e * b <= p < (e + 1) * b -> p / b = e.
Proof. intros Hb Hp. symmetry. apply (Z.div_unique p b e (p - e * b)); lia. Qed.

Lemma div_block_lt (b e p : Z) : 1 <= b -> 0 <= p < e * b -> 0 <= p / b < e.
Proof.
  intros Hb Hp. split; [apply Z.div_pos; lia|].
  apply Z.div_lt_upper_bound; lia.
Qed.

(** The inner loop writes [C] to [i - j], [i - j - 1], ... and nothing
    else. *)
Lemma fill_spec (trips : nat) : forall i j C st,
  0 <= i - j - Z.of_nat trips + 1 -> i - j < size (field st) ->
  exists cF',
    fill trips i j C st
      = Done (mkRun cF' (trace st ++ ((fun j' => Wr (i - j')) <$> seqZ j (Z.of_nat trips))))
    /\ length cF' = length (field st)
    /\ forall p : nat,
         cF' !! p = if decide (i - j - Z.of_nat trips < Z.of_nat p <= i - j)
                    then Some C else field st !! p.
Proof.
  induction trips as [|trips IH]; intros i j C st Hlo Hhi.
  - exists (field st). simpl.
    rewrite app_nil_r. destruct st as [cF tr]; simpl.
    split; [reflexivity|]. split; [reflexivity|].
    intros p. rewrite decide_False by lia. reflexivity.
  - cbn [fill]. unfold write.
    rewrite assign_in_range by lia. cbn.
    set (st1 := mkRun (<[Z.to_nat (i - j) := C]> (field st)) (trace st ++ [Wr (i - j)])).
    destruct (IH i (j + 1) C st1) as (cF' & Hrun & Hlen & Hlook).
    { lia. }
    { unfold st1; cbn. rewrite size_insert. lia. }
    exists cF'. split; [|split].
    + rewrite Hrun. unfold st1; cbn. f_equal. f_equal.
      rewrite (seqZ_cons j) by lia.
      rewrite <- app_assoc. cbn.
      replace (Z.succ j) with (j + 1) by lia.
      replace (Z.pred (Z.of_nat (S trips))) with (Z.of_nat trips) by lia.
      reflexivity.
    + rewrite Hlen. unfold st1; cbn. apply length_insert.
    + intros p. rewrite Hlook. unfold st1; cbn.
      destruct (decide (Z.of_nat p = i - j)) as [Hp|Hp].
      * rewrite decide_False by lia. rewrite decide_True by lia.
        replace (Z.to_nat (i - j)) with p by lia.
        apply list_lookup_insert_eq. unfold size in Hhi. lia.
      * rewrite list_lookup_insert_ne by lia.
        repeat case_decide; try reflexivity; lia.
Qed.

(** The outer loop entered with [m] elements left: the first [m] blocks
    receive the packed values, everything above is left as it was. *)
Lemma sweep_spec (block : Z) (Hb : 1 <= block) (m : nat) : forall fuel st,
  (m <= fuel)%nat -> Z.of_nat m * block <= size (field st) ->
  exists cF',
    sweep fuel block (Z.of_nat m * block - 1) st
      = Done (mkRun cF' (trace st ++ pass_accesses block m))
    /\ length cF' = length (field st)
    /\ forall p : nat,
         cF' !! p = if decide (Z.of_nat p < Z.of_nat m * block)
                    then field st !! Z.to_nat (Z.of_nat p / block)
                    else field st !! p.
Proof.
  induction m as [|m IH]; intros fuel st Hfuel Hsize.
  - exists (field st). destruct fuel; cbn; rewrite app_nil_r; destruct st; cbn;
      (split; [reflexivity|]; split; [reflexivity|]);
      intros p; rewrite decide_False by lia; reflexivity.
  - destruct fuel as [|fuel]; [lia|].
    set (i := Z.of_nat (S m) * block - 1).
    assert (Hi : Z.of_nat m * block <= i < (Z.of_nat m + 1) * block) by (unfold i; nia).
    cbn [sweep]. rewrite decide_False by lia. rewrite decide_False by lia.
    rewrite (div_block block (Z.of_nat m) i Hb Hi).
    assert (Hm : (m < length (field st))%nat) by (unfold size in Hsize; nia).
    destruct (lookup_lt_is_Some_2 _ _ Hm) as [v Hv].
    unfold read. rewrite (subscript_lookup _ _ _ Hv). cbn.
    set (st1 := mkRun (field st) (trace st ++ [Rd (Z.of_nat m)])).
    destruct (fill_spec (Z.to_nat block) i 0 v st1) as (cF1 & Hrun1 & Hlen1 & Hlook1).
    { lia. }
    { unfold st1; cbn. unfold i. lia. }
    rewrite Hrun1. cbn.
    set (st2 := mkRun cF1 _).
    destruct (IH fuel st2) as (cF' & Hrun & Hlen & Hlook).
    { lia. }
    { unfold st2; cbn. unfold size in *. rewrite Hlen1. unfold st1; cbn. lia. }
    exists cF'. split; [|split].
    + replace (i - block) with (Z.of_nat m * block - 1) by (unfold i; lia).
      rewrite Hrun. unfold st2, st1; cbn. f_equal. f_equal.
      rewrite <- !app_assoc. cbn. f_equal. f_equal. f_equal.
      unfold slot_writes. rewrite Z2Nat.id by lia.
      apply list_fmap_ext. intros _ j _. f_equal. unfold i. lia.
    + rewrite Hlen. unfold st2; cbn. rewrite Hlen1. reflexivity.
    + intros p. rewrite Hlook. unfold st2; cbn. rewrite !Hlook1. unfold st1; cbn.
      rewrite Z2Nat.id by lia.
      destruct (decide (Z.of_nat p < Z.of_nat m * block)) as [Hp|Hp].
      * pose proof (div_block_lt block (Z.of_nat m) (Z.of_nat p) Hb ltac:(lia)) as Hd.
        rewrite (Z2Nat.id (Z.of_nat p / block)) by lia.
        case_decide; [exfalso; unfold i in *; nia|].
        case_decide; [reflexivity | lia].
      * destruct (decide (Z.of_nat p < Z.of_nat (S m) * block)) as [Hp'|Hp'].
        -- rewrite decide_True by (unfold i; lia).
           rewrite (div_block block (Z.of_nat m) (Z.of_nat p)) by lia.
           now rewrite Nat2Z.id, Hv.
        -- rewrite decide_False by (unfold i; lia). reflexivity.
Qed.

(** *** The accesses of a pass *)









(** *** Whole passes *)

(** A pass with block size [block] over [n] packed elements. *)
Lemma expand_block_run fuel md entity block cF (n : nat) :
  block_of md entity = Some block -> NPMAT md <> 0 ->
  1 <= block -> size cF = Z.of_nat n * block -> (n <= fuel)%nat ->
  exists cF',
    expand fuel md entity cF = Done (mkRun cF' (pass_accesses block n))
    /\ length cF' = length cF
    /\ forall p : nat, (p < length cF)%nat ->
         cF' !! p = cF !! Z.to_nat (Z.of_nat p / block).
Proof.
  intros Hblock Hmat Hb Hsize Hfuel.
  destruct (sweep_spec block Hb n fuel (mkRun cF [])) as (cF' & Hrun & Hlen & Hlook).
  { exact Hfuel. }
  { cbn. lia. }
  exists cF'. unfold expand. rewrite decide_False by exact Hmat.
  rewrite Hblock, Hsize, Hrun. cbn in *.
  split; [reflexivity|]. split; [exact Hlen|].
  intros p Hp. rewrite Hlook. unfold size in Hsize.
  rewrite decide_True by lia. reflexivity.
Qed.





(** C6. With a single node per element ([NP == 1]): when no table is
    allocated ([NPMAT == 0]) [expand] returns the field it was given at
    once, for any entity, without touching the storage; and a cell field
    comes back entry for entry the same even if the guard lets the loop
    run. *)
Theorem expand_single_node_noop fuel md (cF : list type) :
  NP md = 1 ->
  (forall entity, NPMAT md = 0 -> expand fuel md entity cF = Done (mkRun cF []))
  /\ ((length cF <= fuel)%nat -> result (expand fuel md CELL cF) = Some cF).
Proof.
  intros Hnp. split.
  - intros entity Hmat. unfold expand. now rewrite decide_True.
  - intros Hfuel. destruct (decide (NPMAT md = 0)) as [Hmat|Hmat].
    + unfold expand. now rewrite decide_True.
    + destruct (expand_block_run fuel md CELL 1 cF (length cF))
        as (cF' & Hrun & Hlen & Hlook); try assumption.
      { cbn. now rewrite Hnp. }
      { lia. }
      { unfold size. lia. }
      rewrite Hrun. cbn. f_equal. apply list_eq. intros p.
      destruct (decide (p < length cF)%nat) as [Hp|Hp].
      * rewrite Hlook by exact Hp. now rewrite Z.div_1_r, Nat2Z.id.
      * rewrite !lookup_ge_None_2 by lia. reflexivity.
Qed.


End Loops.





Lemma expand_single_node_noop_witness :
  expand 0 (mkOrder 1 1 0) FACET [4; 5; 6] = Done (mkRun [4; 5; 6] [])
  /\ result (expand 3 (mkOrder 1 1 1) CELL [4; 5; 6]) = Some [4; 5; 6].
Proof.
  split.
  - apply (expand_single_node_noop 0 (mkOrder 1 1 0) [4; 5; 6]); reflexivity.
  - apply (expand_single_node_noop 3 (mkOrder 1 1 1) [4; 5; 6]); [reflexivity|].
    cbn. lia.
Defined.


End ExpandFacts.

(** ** Turbulence closures *)

Module TurbulenceFacts.
Import Field FieldFacts Turbulence.

Section Models.

Context {Scalar Vector ParamList : Type} {arith : Arith Scalar Vector}.
Variable cell_count : nat.

Local Abbreviation Turbulence_Model := (@Turbulence_Model Scalar Vector ParamList).
Local Abbreviation KX_Model := (@KX_Model Scalar Vector ParamList).

(** C9. Whatever the state of the base (laminar) model, the field returned
    by [getReynoldsStress] has one entry per cell and every entry is the
    symmetric tensor with all six components zero, and the field returned
    by [getK] has one entry per cell and every entry is zero. *)
Theorem laminar_no_turbulence (m : Turbulence_Model) :
  length (getReynoldsStress cell_count m) = cell_count
  /\ Forall (fun t => t = mkSTensor s_zero s_zero s_zero s_zero s_zero s_zero)
       (getReynoldsStress cell_count m)
  /\ length (getK cell_count m) = cell_count
  /\ Forall (fun s => s = s_zero) (getK cell_count m).
Proof.
  unfold getReynoldsStress, getK, uniform_field.
  rewrite !length_replicate.
  split; [reflexivity|]. split; [|split; [reflexivity|]].
  - apply Forall_replicate. reflexivity.
  - apply Forall_replicate. reflexivity.
Qed.

Variable mesh : @MeshData Vector.
Variable calcX : KX_Model -> Scalar -> Scalar -> Scalar -> Scalar.

(** C10. At a wall face whose arrays are all in range:
    with [wallModel == STANDARD] the call returns having set [k[c1]] to
    [pow(ustar,2) / sqrt(Cmu)] and left [Pk] as it was;
    with [wallModel == LAUNDER] it returns having left [k] as it was, with
    [ustar] formed from [k[c1]], and having set [Pk[c1]];
    in both modes [x[c1]] and [eddy_mu[c1]] are set and no other entry of
    [k], [x], [Pk], [eddy_mu] changes. *)
Theorem applyWallFunction_frame (low : LawOfWall) (m : KX_Model) (f c1 c2 : nat)
    (n_f x1 x2 u1 u2 : Vector) (k1 : Scalar) :
  wall_face mesh m f c1 c2 n_f x1 x2 u1 u2 k1 ->
  let y := wall_y n_f x1 x2 in
  match wallModel (eddy m) with
  | STANDARD =>
      let ustar := ustar_standard low m u1 y in
      let k' := <[c1 := s_div (s_pow ustar s_two) (s_sqrt (Cmu m))]> (k m) in
      exists m',
        applyWallFunction mesh calcX (Z.of_nat f) low m = Done m'
        /\ k m' = k'
        /\ Pk m' = Pk m
        /\ x m' = <[c1 := calcX (set_k k' m) ustar (kappa low) y]> (x m)
        /\ eddy_mu (eddy m') = <[c1 := wall_eddy_mu low m ustar y]> (eddy_mu (eddy m))
  | LAUNDER =>
      let ustar := ustar_launder m k1 in
      let emu := wall_eddy_mu low m ustar y in
      exists m',
        applyWallFunction mesh calcX (Z.of_nat f) low m = Done m'
        /\ k m' = k m
        /\ Pk m' = <[c1 := wall_Pk low u1 u2 ustar y emu]> (Pk m)
        /\ x m' = <[c1 := calcX m ustar (kappa low) y]> (x m)
        /\ eddy_mu (eddy m') = <[c1 := emu]> (eddy_mu (eddy m))
  | NONE => applyWallFunction mesh calcX (Z.of_nat f) low m = Undefined
  end.
Proof.
  intros [Ho Hn Hf Hc1 Hc2 HU1 HU2 Hk Hx Hemu HPk] y.
  unfold applyWallFunction.
  rewrite (subscript_lookup _ _ _ Ho); cbn.
  rewrite (subscript_lookup _ _ _ Hn); cbn.
  rewrite (subscript_lookup _ _ _ Hf); cbn.
  rewrite (subscript_lookup _ _ _ Hc1); cbn.
  rewrite (subscript_lookup _ _ _ Hc2); cbn.
  fold (wall_y n_f x1 x2). fold y.
  unfold calc_ustar.
  destruct (wallModel (eddy m)) eqn:Hw.
  - reflexivity.
  - rewrite (subscript_lookup _ _ _ HU1); cbn.
    rewrite (assign_lookup (k m)) by (apply lookup_lt_Some in Hk; exact Hk); cbn.
    rewrite (assign_lookup (x m)) by exact Hx; cbn.
    rewrite (assign_lookup (eddy_mu (eddy m))) by exact Hemu; cbn.
    rewrite Hw.
    eexists. split; [reflexivity|]. cbn. repeat split.
  - rewrite (subscript_lookup _ _ _ Hk); cbn.
    rewrite (assign_lookup (x m)) by exact Hx; cbn.
    rewrite (assign_lookup (eddy_mu (eddy m))) by exact Hemu; cbn.
    rewrite Hw.
    rewrite (subscript_lookup _ _ _ HU2); cbn.
    rewrite (subscript_lookup _ _ _ HU1); cbn.
    rewrite (subscript_lookup (<[c1:=_]> _) c1 _ (list_lookup_insert_eq _ _ _ Hemu)); cbn.
    rewrite (assign_lookup (Pk m)) by exact HPk; cbn.
    eexists. split; [reflexivity|]. cbn. repeat split.
Qed.

End Models.

(** The sample face under the Launder model: [k] is read, not written. *)
Lemma applyWallFunction_frame_witness :
  exists m',
    applyWallFunction (arith := Z_Arith) sample_mesh sample_calcX 0 sample_low
      (sample_model LAUNDER) = Done m'
    /\ k m' = [4; 4]
    /\ Pk m' = [12; 0]
    /\ x m' = [3; 0]
    /\ eddy_mu (eddy m') = [1; 0].
Proof.
  assert (Hface : wall_face sample_mesh (sample_model LAUNDER)
                    0 0 1 1 0 1 2 8 4).
  { constructor; try reflexivity; cbn; lia. }
  exact (applyWallFunction_frame (arith := Z_Arith) sample_mesh sample_calcX
           sample_low (sample_model LAUNDER) 0 0 1 1 0 1 2 8 4 Hface).
Defined.

End TurbulenceFacts.

(** ** The loop nests and the flattening *)

Module LglFacts.
Import Index Lgl.

Lemma fmap_bind {A B C : Type} (f : B -> C) (g : A -> list B) (l : list A) :
  f <$> (l ≫= g) = l ≫= (fun a => f <$> g a).
Proof.
  induction l as [|a l IH]; [reflexivity|].
  rewrite !bind_cons, fmap_app, IH. reflexivity.
Qed.

Lemma bind_singleton_fmap {A B : Type} (g : A -> B) (l : list A) :
  l ≫= (fun a => [g a]) = g <$> l.
Proof.
  induction l as [|a l IH]; [reflexivity|].
  rewrite bind_cons, IH. reflexivity.
Qed.

(** [n] consecutive runs of length [b] make one run of length [n * b]. *)
Lemma bind_seqZ_runs (a b : Z) (n : nat) :
  0 <= b ->
  seqZ 0 (Z.of_nat n) ≫= (fun j => seqZ (a + j * b) b) = seqZ a (Z.of_nat n * b).
Proof.
  intros Hb. induction n as [|n IH].
  - reflexivity.
  - rewrite seqZ_S, bind_app, IH, bind_singleton.
    replace (Z.of_nat (S n) * b) with (Z.of_nat n * b + b) by lia.
    rewrite seqZ_app by nia. f_equal; try f_equal; lia.
Qed.

Lemma bind_seqZ_runs_Z (a b n : Z) :
  0 <= b -> 0 <= n ->
  seqZ 0 n ≫= (fun j => seqZ (a + j * b) b) = seqZ a (n * b).
Proof.
  intros Hb Hn. rewrite <- (Z2Nat.id n) by exact Hn. apply bind_seqZ_runs, Hb.
Qed.

Lemma fmap_offset_seqZ (a n : Z) : (fun k => a + k) <$> seqZ 0 n = seqZ a n.
Proof.
  transitivity (Z.add a <$> seqZ 0 n); [reflexivity|].
  rewrite fmap_add_seqZ. f_equal. lia.
Qed.

Lemma fmap_ext_elem {A B : Type} (f g : A -> B) (l : list A) :
  (forall a, a ∈ l -> f a = g a) -> f <$> l = g <$> l.
Proof.
  intros H. apply list_fmap_ext. intros n a Ha.
  apply H, (list_elem_of_lookup_2 _ n), Ha.
Qed.

(** The pairs a nest of two loops runs its body on. *)
Lemma elem_of_nest2 (A B i j : Z) :
  (i, j) ∈ (seqZ 0 A ≫= fun i' => seqZ 0 B ≫= fun j' => [(i', j')])
  <-> 0 <= i < A /\ 0 <= j < B.
Proof.
  rewrite list_elem_of_bind. split.
  - intros (i' & Hin & Hi). apply elem_of_seqZ in Hi.
    apply list_elem_of_bind in Hin as (j' & Hin & Hj). apply elem_of_seqZ in Hj.
    apply list_elem_of_singleton in Hin. injection Hin as -> ->. lia.
  - intros (Hi & Hj). exists i. split; [|apply elem_of_seqZ; lia].
    apply list_elem_of_bind. exists j. split; [|apply elem_of_seqZ; lia].
    apply list_elem_of_singleton. reflexivity.
Qed.

Section Nests.

Variables NPX NPY NPZ : Z.
Hypothesis HX : 0 <= NPX.
Hypothesis HY : 0 <= NPY.
Hypothesis HZ : 0 <= NPZ.

(** The pairs of the XY nest, numbered row by row. *)
Lemma forEachLglXY_rows :
  (fun '(i, j) => i * NPY + j) <$> forEachLglXY NPX NPY = seqZ 0 (NPX * NPY).
Proof.
  unfold forEachLglXY. rewrite fmap_bind.
  rewrite <- (bind_seqZ_runs_Z 0 NPY NPX HY HX).
  apply list_bind_ext; [|reflexivity]. intros i.
  rewrite bind_singleton_fmap, <- list_fmap_compose.
  rewrite <- (fmap_offset_seqZ (0 + i * NPY)).
  apply list_fmap_ext. intros _ j _. cbn. lia.
Qed.

(** The exact offsets of the visited triples, before any wrap-around. *)
Lemma forEachLgl_offset3 :
  (fun '(i, j, k) => offset3 NPY NPZ i j k) <$> forEachLgl NPX NPY NPZ
  = seqZ 0 (NPX * NPY * NPZ).
Proof.
  unfold forEachLgl. rewrite fmap_bind.
  replace (NPX * NPY * NPZ) with (NPX * (NPY * NPZ)) by ring.
  rewrite <- (bind_seqZ_runs_Z 0 (NPY * NPZ) NPX) by nia.
  apply list_bind_ext; [|reflexivity]. intros i.
  rewrite fmap_bind.
  rewrite <- (bind_seqZ_runs_Z (0 + i * (NPY * NPZ)) NPZ NPY HZ HY).
  apply list_bind_ext; [|reflexivity]. intros j.
  rewrite bind_singleton_fmap, <- list_fmap_compose.
  rewrite <- (fmap_offset_seqZ (0 + i * (NPY * NPZ) + j * NPZ)).
  apply list_fmap_ext. intros _ k _. cbn. unfold offset3. ring.
Qed.

Lemma elem_of_forEachLgl i j k :
  (i, j, k) ∈ forEachLgl NPX NPY NPZ <-> in_range3 NPX NPY NPZ i j k.
Proof.
  unfold forEachLgl, in_range3. rewrite list_elem_of_bind. split.
  - intros (i' & Hin & Hi). apply elem_of_seqZ in Hi.
    apply list_elem_of_bind in Hin as (j' & Hin & Hj). apply elem_of_seqZ in Hj.
    apply list_elem_of_bind in Hin as (k' & Hin & Hk). apply elem_of_seqZ in Hk.
    apply list_elem_of_singleton in Hin. injection Hin as -> -> ->. lia.
  - intros (Hi & Hj & Hk). exists i. split; [|apply elem_of_seqZ; lia].
    apply list_elem_of_bind. exists j. split; [|apply elem_of_seqZ; lia].
    apply list_elem_of_bind. exists k. split; [|apply elem_of_seqZ; lia].
    apply list_elem_of_singleton. reflexivity.
Qed.

(** From here on the node offsets of one element fit [Int]. *)
Hypothesis Hfit : NPX * NPY * NPZ <= Int_modulus.

Lemma forEachLgl_INDEX3 :
  (fun '(i, j, k) => INDEX3 NPY NPZ i j k) <$> forEachLgl NPX NPY NPZ
  = seqZ 0 (NPX * NPY * NPZ).
Proof.
  rewrite <- forEachLgl_offset3. apply fmap_ext_elem.
  intros [[i j] k] Hin. apply elem_of_forEachLgl in Hin.
  apply (IndexFacts.INDEX3_exact NPX); assumption.
Qed.

(** X1. With node counts whose product fits [Int]
    ([NPX*NPY*NPZ <= 2^32]), the [forEachLgl] nest visits the nodes in
    storage order: the [INDEX3] offsets of the visited triples are
    [0, 1, ..., NPX*NPY*NPZ - 1] in this order.  So the nest runs its body
    [NPX*NPY*NPZ] times, on every in-range triple and on nothing else, and
    on no triple twice. *)
Theorem forEachLgl_storage_order :
  (fun '(i, j, k) => INDEX3 NPY NPZ i j k) <$> forEachLgl NPX NPY NPZ
  = seqZ 0 (NPX * NPY * NPZ)
  /\ length (forEachLgl NPX NPY NPZ) = Z.to_nat (NPX * NPY * NPZ)
  /\ NoDup (forEachLgl NPX NPY NPZ)
  /\ (forall i j k,
        (i, j, k) ∈ forEachLgl NPX NPY NPZ <-> in_range3 NPX NPY NPZ i j k).
Proof.
  pose proof forEachLgl_INDEX3 as E.
  split; [exact E|]. split; [|split].
  - rewrite <- (length_fmap (fun '(i, j, k) => INDEX3 NPY NPZ i j k)), E.
    apply length_seqZ.
  - apply (NoDup_fmap_1 (fun '(i, j, k) => INDEX3 NPY NPZ i j k)).
    rewrite E. apply NoDup_seqZ.
  - apply elem_of_forEachLgl.
Qed.

(** X2. The face nests against the flattening, for node counts whose
    product fits [Int] and a fixed index that is in range.  With [k]
    fixed, the XY nest visits offsets [NPZ] apart, starting at [k]; with
    [i] fixed, the YZ nest visits the [NPY*NPZ] consecutive offsets from
    [i*NPY*NPZ]; with [j] fixed, the XZ nest visits [NPX] runs of [NPZ]
    consecutive offsets, the run of [i] starting at [i*NPY*NPZ + j*NPZ]. *)
Theorem face_nests_offsets (i0 j0 k0 : Z) :
  in_range3 NPX NPY NPZ i0 j0 k0 ->
  (fun '(i, j) => INDEX3 NPY NPZ i j k0) <$> forEachLglXY NPX NPY
  = (fun t => k0 + t * NPZ) <$> seqZ 0 (NPX * NPY)
  /\ (fun '(j, k) => INDEX3 NPY NPZ i0 j k) <$> forEachLglYZ NPY NPZ
     = seqZ (i0 * NPY * NPZ) (NPY * NPZ)
  /\ (fun '(i, k) => INDEX3 NPY NPZ i j0 k) <$> forEachLglXZ NPX NPZ
     = seqZ 0 NPX ≫= (fun i => seqZ (i * NPY * NPZ + j0 * NPZ) NPZ).
Proof.
  intros (Hi0 & Hj0 & Hk0).
  split; [|split].
  - transitivity ((fun '(i, j) => offset3 NPY NPZ i j k0) <$> forEachLglXY NPX NPY).
    { apply fmap_ext_elem. intros [i j] Hin. apply elem_of_nest2 in Hin.
      apply (IndexFacts.INDEX3_exact NPX); [|exact Hfit].
      unfold in_range3. lia. }
    rewrite <- forEachLglXY_rows, <- list_fmap_compose.
    apply list_fmap_ext. intros _ [i j] _. cbn. unfold offset3. ring.
  - transitivity ((fun '(j, k) => offset3 NPY NPZ i0 j k) <$> forEachLglYZ NPY NPZ).
    { apply fmap_ext_elem. intros [j k] Hin. apply elem_of_nest2 in Hin.
      apply (IndexFacts.INDEX3_exact NPX); [|exact Hfit].
      unfold in_range3. lia. }
    unfold forEachLglYZ. rewrite fmap_bind.
    rewrite <- (bind_seqZ_runs_Z (i0 * NPY * NPZ) NPZ NPY HZ HY).
    apply list_bind_ext; [|reflexivity]. intros j.
    rewrite bind_singleton_fmap, <- list_fmap_compose.
    rewrite <- (fmap_offset_seqZ (i0 * NPY * NPZ + j * NPZ)).
    apply list_fmap_ext. intros _ k _. cbn. unfold offset3. ring.
  - transitivity ((fun '(i, k) => offset3 NPY NPZ i j0 k) <$> forEachLglXZ NPX NPZ).
    { apply fmap_ext_elem. intros [i k] Hin. apply elem_of_nest2 in Hin.
      apply (IndexFacts.INDEX3_exact NPX); [|exact Hfit].
      unfold in_range3. lia. }
    unfold forEachLglXZ. rewrite fmap_bind.
    apply list_bind_ext; [|reflexivity]. intros i.
    rewrite bind_singleton_fmap, <- list_fmap_compose.
    rewrite <- (fmap_offset_seqZ (i * NPY * NPZ + j0 * NPZ)).
    apply list_fmap_ext. intros _ k _. cbn. unfold offset3. ring.
Qed.

(** X3. One component after the other, for [NC] components whose index
    space fits [Int] ([NC*NPX*NPY*NPZ <= 2^32]): for a component [c < NC]
    the nest visits [INDEX4] offsets [c*S, ..., (c+1)*S - 1] in order,
    where [S = NPX*NPY*NPZ]; looping over the components [0 .. NC-1] around
    the nest therefore visits [0, ..., NC*S - 1] in order. *)
Theorem forEachLgl_component_order (NC c : Z) :
  0 <= c < NC ->
  NC * NPX * NPY * NPZ <= Int_modulus ->
  (fun '(i, j, k) => INDEX4 NPX NPY NPZ c i j k) <$> forEachLgl NPX NPY NPZ
  = seqZ (c * (NPX * NPY * NPZ)) (NPX * NPY * NPZ)
  /\ seqZ 0 NC ≫= (fun c' =>
       (fun '(i, j, k) => INDEX4 NPX NPY NPZ c' i j k) <$> forEachLgl NPX NPY NPZ)
     = seqZ 0 (NC * (NPX * NPY * NPZ)).
Proof.
  intros HC HfitNC.
  assert (Hslab : forall c', 0 <= c' < NC ->
    (fun '(i, j, k) => INDEX4 NPX NPY NPZ c' i j k) <$> forEachLgl NPX NPY NPZ
    = seqZ (c' * (NPX * NPY * NPZ)) (NPX * NPY * NPZ)).
  { intros c' Hc'.
    rewrite <- fmap_offset_seqZ, <- forEachLgl_offset3, <- list_fmap_compose.
    apply fmap_ext_elem. intros [[i j] k] Hin. apply elem_of_forEachLgl in Hin.
    rewrite (IndexFacts.INDEX4_exact NPX NPY NPZ NC); [|split; assumption|exact HfitNC].
    cbn. unfold offset4, offset3. ring. }
  split; [apply Hslab, HC|].
  rewrite <- (bind_seqZ_runs_Z 0 (NPX * NPY * NPZ) NC) by nia.
  apply Forall_bind_ext, Forall_forall. intros c' Hc'.
  apply elem_of_seqZ in Hc'. rewrite Hslab by lia. f_equal; lia.
Qed.

End Nests.

Lemma forEachLgl_storage_order_witness :
  (fun '(i, j, k) => INDEX3 3 2 i j k) <$> forEachLgl 2 3 2 = seqZ 0 (2 * 3 * 2)
  /\ NoDup (forEachLgl 2 3 2).
Proof.
  destruct (forEachLgl_storage_order 2 3 2) as (E & _ & N & _);
    try (unfold Int_modulus; lia).
  split; [exact E | exact N].
Defined.

Lemma face_nests_offsets_witness :
  (fun '(i, j) => INDEX3 3 2 i j 1) <$> forEachLglXY 2 3 = [1; 3; 5; 7; 9; 11].
Proof.
  destruct (face_nests_offsets 2 3 2) with (i0 := 0) (j0 := 0) (k0 := 1)
    as (E & _ & _); try (unfold Int_modulus, in_range3; lia).
  rewrite E. reflexivity.
Defined.

Lemma forEachLgl_component_order_witness :
  (fun '(i, j, k) => INDEX4 2 1 2 3 i j k) <$> forEachLgl 2 1 2 = [12; 13; 14; 15].
Proof.
  destruct (forEachLgl_component_order 2 1 2) with (NC := 4) (c := 3)
    as (E & _); try (unfold Int_modulus; lia).
  rewrite E. reflexivity.
Defined.

End LglFacts.

(** ** Field expansion: layout, inputs read, and failure *)

Module ExpandMore.
Import Field Expand FieldFacts ExpandFacts.

Section Loops.

Context {type : Type}.
Implicit Types (cF : list type) (st : @run type) (C : type).






End Loops.




End ExpandMore.

(** ** The sweep over the wall faces *)

Module WallLoopFacts.
Import Field FieldFacts Turbulence WallLoop.

Lemma bind_Done_inv {A B : Type} (m : outcome A) (f : A -> outcome B) (b : B) :
  m ≫= f = Done b -> exists a, m = Done a /\ f a = Done b.
Proof. destruct m as [a| |]; cbn; [eauto | discriminate | discriminate]. Qed.

Lemma subscript_Done_inv {type : Type} (cF : list type) (idx : Z) (v : type) :
  subscript cF idx = Done v -> 0 <= idx /\ cF !! Z.to_nat idx = Some v.
Proof.
  unfold subscript. case_decide; [|discriminate].
  destruct (cF !! Z.to_nat idx) eqn:E; [|discriminate].
  intros [= ->]. auto.
Qed.

Lemma assign_Done_inv {type : Type} (cF cF' : list type) (idx : Z) (v : type) :
  assign cF idx v = Done cF' -> 0 <= idx /\ cF' = <[Z.to_nat idx := v]> cF.
Proof.
  unfold assign. case_decide; [|discriminate]. intros [= <-]. split; [lia | reflexivity].
Qed.

Section Generic.

Context {Scalar : Type}.
Variable Model : Type.
Variable apply : Z -> @LawOfWall Scalar -> Model -> outcome Model.
Variable U_fIndex : Z.

Local Abbreviation wall_faces_loop := (wall_faces_loop Model apply).
Local Abbreviation setWallEddyMu := (setWallEddyMu Model apply U_fIndex).

(** A relation that holds across one wall function holds across the whole
    sweep, if it is reflexive and transitive. *)
Section Across.

Variable R : Model -> Model -> Prop.
Hypothesis R_refl : forall m, R m m.
Hypothesis R_trans : forall m1 m2 m3, R m1 m2 -> R m2 m3 -> R m1 m3.
Hypothesis R_step : forall f law m m', apply f law m = Done m' -> R m m'.

Lemma wall_faces_loop_across faces law : forall m m',
  wall_faces_loop faces law m = Done m' -> R m m'.
Proof.
  induction faces as [|f faces IH]; intros m m' Hrun; cbn in Hrun.
  - injection Hrun as <-. apply R_refl.
  - apply bind_Done_inv in Hrun as (m1 & Hstep & Hrest).
    eapply R_trans; [eapply R_step, Hstep | apply IH, Hrest].
Qed.

Lemma setWallEddyMu_across bcs : forall m m',
  setWallEddyMu bcs m = Done m' -> R m m'.
Proof.
  induction bcs as [|bbc bcs IH]; intros m m' Hrun; cbn in Hrun.
  - injection Hrun as <-. apply R_refl.
  - apply bind_Done_inv in Hrun as (m1 & Hbbc & Hrest).
    eapply R_trans; [|apply IH, Hrest].
    destruct (isWall bbc && bool_decide (fIndex bbc = U_fIndex)).
    + case_decide.
      * eapply wall_faces_loop_across, Hbbc.
      * injection Hbbc as <-. apply R_refl.
    + injection Hbbc as <-. apply R_refl.
Qed.

End Across.

(** X10. Boundaries that are not walls, that belong to another field, or
    that have no faces are skipped: if every boundary condition is of one
    of these kinds, [setWallEddyMu] returns the object as it was and calls
    no wall function (whatever [applyWallFunction] would do). *)
Theorem setWallEddyMu_skips_non_walls (bcs : list (@BasicBCondition Scalar)) (m : Model) :
  (forall bbc, bbc ∈ bcs ->
     isWall bbc = false \/ fIndex bbc <> U_fIndex \/ bdry bbc = []) ->
  setWallEddyMu bcs m = Done m.
Proof.
  induction bcs as [|bbc bcs IH]; intros Hskip; [reflexivity|].
  cbn [WallLoop.setWallEddyMu].
  match goal with
  | |- ?first ≫= _ = _ => assert (Hfirst : first = Done m)
  end.
  { destruct (Hskip bbc ltac:(now left)) as [Hw | [Hf | Hb]].
    - now rewrite Hw.
    - rewrite (bool_decide_eq_false_2 _ Hf), andb_false_r. reflexivity.
    - rewrite Hb. destruct (isWall bbc && _); reflexivity. }
  rewrite Hfirst. cbn.
  apply IH. intros b Hb. apply Hskip. now right.
Qed.

End Generic.

Section KX.

Context {Scalar Vector ParamList : Type} {arith : Arith Scalar Vector}.
Variable mesh : @MeshData Vector.

Local Abbreviation KX_Model := (@KX_Model Scalar Vector ParamList).

Variable calcX : KX_Model -> Scalar -> Scalar -> Scalar -> Scalar.

Lemma same_frame_refl (m : KX_Model) : same_frame m m.
Proof. unfold same_frame. repeat split. Qed.

Lemma same_frame_trans (m1 m2 m3 : KX_Model) :
  same_frame m1 m2 -> same_frame m2 m3 -> same_frame m1 m3.
Proof.
  unfold same_frame.
  intros (A1 & A2 & A3 & A4 & A5 & A6 & A7 & A8) (B1 & B2 & B3 & B4 & B5 & B6 & B7 & B8).
  repeat split; congruence.
Qed.

(** Everything a returning wall function can have done. *)
Lemma applyWallFunction_Done f law (m m' : KX_Model) :
  applyWallFunction mesh calcX f law m = Done m' ->
  exists c1 : nat,
    subscript (gFO mesh) f = Done (Z.of_nat c1)
    /\ same_frame m m'
    /\ (forall c, c <> c1 -> same_at c m m')
    /\ (wallModel (eddy m) = LAUNDER -> k m' = k m)
    /\ (wallModel (eddy m) = STANDARD -> Pk m' = Pk m)
    /\ wallModel (eddy m) <> NONE.
Proof.
  intros H. unfold applyWallFunction in H.
  apply bind_Done_inv in H as (c1z & Hc1 & H).
  apply bind_Done_inv in H as (c2z & Hc2 & H).
  apply bind_Done_inv in H as (fN_f & HfN & H).
  apply bind_Done_inv in H as (cC1 & HcC1 & H).
  apply bind_Done_inv in H as (cC2 & HcC2 & H).
  cbv zeta in H.
  apply bind_Done_inv in H as ([ustar m1] & Hu & H).
  apply bind_Done_inv in H as (x' & Hx & H).
  cbv zeta in H.
  apply bind_Done_inv in H as (emu' & Hemu & H).
  cbv zeta in H.
  apply subscript_Done_inv in HcC1 as (Hc1nn & _).
  apply assign_Done_inv in Hx as (_ & ->).
  apply assign_Done_inv in Hemu as (_ & ->).
  exists (Z.to_nat c1z). rewrite Z2Nat.id by exact Hc1nn.
  split; [exact Hc1|].
  unfold calc_ustar in Hu.
  destruct (wallModel (eddy m)) eqn:Hw; [discriminate| |].
  - (* STANDARD *)
    apply bind_Done_inv in Hu as (U_c1 & _ & Hu).
    cbv zeta in Hu.
    apply bind_Done_inv in Hu as (k' & Hk & Hu).
    apply assign_Done_inv in Hk as (_ & ->).
    injection Hu as <- <-.
    cbn in H. rewrite Hw in H. injection H as <-.
    unfold same_frame, same_at. cbn. rewrite !length_insert.
    repeat split; try congruence.
    all: intros; rewrite ?list_lookup_insert_ne by congruence; reflexivity.
  - (* LAUNDER *)
    apply bind_Done_inv in Hu as (k_c1 & _ & Hu).
    injection Hu as <- <-.
    cbn in H. rewrite Hw in H.
    apply bind_Done_inv in H as (U_c2 & _ & H).
    apply bind_Done_inv in H as (U_c1 & _ & H).
    cbv zeta in H.
    apply bind_Done_inv in H as (emu_c1 & _ & H).
    apply bind_Done_inv in H as (Pk' & HPk & H).
    apply assign_Done_inv in HPk as (_ & ->).
    injection H as <-.
    unfold same_frame, same_at. cbn. rewrite !length_insert.
    repeat split; try congruence.
    all: intros; rewrite ?list_lookup_insert_ne by congruence; reflexivity.
Qed.

Lemma same_at_refl c (m : KX_Model) : same_at c m m.
Proof. unfold same_at. repeat split. Qed.

Lemma same_at_trans c (m1 m2 m3 : KX_Model) :
  same_at c m1 m2 -> same_at c m2 m3 -> same_at c m1 m3.
Proof.
  unfold same_at. intros (A1 & A2 & A3 & A4) (B1 & B2 & B3 & B4).
  repeat split; congruence.
Qed.

(** X7. A call of the wall function that returns has run under the
    [STANDARD] or the [LAUNDER] wall model, and has changed nothing but
    entries of [k], [x], [Pk], [eddy_mu] at the owner cell [gFO[f]] of the
    face: the base state, both mode flags, all coefficients and the sizes
    of the four fields are as before, and so is every entry at any other
    cell. *)
Theorem applyWallFunction_touches_owner_only f law (m m' : KX_Model) :
  applyWallFunction mesh calcX f law m = Done m' ->
  wallModel (eddy m) <> NONE
  /\ same_frame m m'
  /\ exists c1 : nat,
       subscript (gFO mesh) f = Done (Z.of_nat c1)
       /\ forall c, c <> c1 -> same_at c m m'.
Proof.
  intros H. apply applyWallFunction_Done in H as (c1 & Ho & Hf & Hat & _ & _ & Hw).
  split; [exact Hw|]. split; [exact Hf|]. exists c1. split; [exact Ho | exact Hat].
Qed.

(** What holds from the object before a sweep to the object after it. *)
Lemma KX_setWallEddyMu_relation U_fIndex bcs (m m' : KX_Model) :
  KX_setWallEddyMu mesh calcX U_fIndex bcs m = Done m' ->
  same_frame m m'
  /\ (wallModel (eddy m) = LAUNDER -> k m' = k m)
  /\ (wallModel (eddy m) = STANDARD -> Pk m' = Pk m).
Proof.
  unfold KX_setWallEddyMu.
  apply (setWallEddyMu_across _ (applyWallFunction mesh calcX) U_fIndex
           (fun m m' => same_frame m m'
              /\ (wallModel (eddy m) = LAUNDER -> k m' = k m)
              /\ (wallModel (eddy m) = STANDARD -> Pk m' = Pk m))).
  - intros m0. split; [apply same_frame_refl|]. split; reflexivity.
  - intros m1 m2 m3 (F12 & L12 & S12) (F23 & L23 & S23).
    assert (Hw : wallModel (eddy m2) = wallModel (eddy m1)) by apply F12.
    split; [eapply same_frame_trans; eassumption|]. split; intros Hm.
    + rewrite L23, L12 by congruence. reflexivity.
    + rewrite S23, S12 by congruence. reflexivity.
  - intros f law m0 m0' Hstep.
    apply applyWallFunction_Done in Hstep as (c1 & _ & Hf & _ & HL & HS & _).
    auto.
Qed.

(** X8. A sweep of [setWallEddyMu] over any list of boundary conditions,
    when it returns, leaves the base state, the mode flags, the
    coefficients and the sizes of [k], [x], [Pk], [eddy_mu] as they were;
    under the [LAUNDER] wall model it leaves the whole field [k] unchanged,
    and under the [STANDARD] wall model the whole field [Pk]. *)
Theorem KX_setWallEddyMu_frame U_fIndex bcs (m m' : KX_Model) :
  KX_setWallEddyMu mesh calcX U_fIndex bcs m = Done m' ->
  same_frame m m'
  /\ (wallModel (eddy m) = LAUNDER -> k m' = k m)
  /\ (wallModel (eddy m) = STANDARD -> Pk m' = Pk m).
Proof. apply KX_setWallEddyMu_relation. Qed.

Lemma wall_faces_loop_same_at c faces law : forall (m m' : KX_Model),
  wall_faces_loop _ (applyWallFunction mesh calcX) faces law m = Done m' ->
  (forall f, f ∈ faces -> subscript (gFO mesh) f <> Done (Z.of_nat c)) ->
  same_at c m m'.
Proof.
  induction faces as [|f faces IH]; intros m m' Hrun Hnot; cbn in Hrun.
  - injection Hrun as <-. apply same_at_refl.
  - apply bind_Done_inv in Hrun as (m1 & Hstep & Hrest).
    apply applyWallFunction_Done in Hstep as (c1 & Ho & _ & Hat & _).
    eapply same_at_trans.
    + apply Hat. intros ->. apply (Hnot f); [now left | exact Ho].
    + apply IH; [exact Hrest|]. intros f' Hf'. apply Hnot. now right.
Qed.

(** X9. A sweep of [setWallEddyMu] that returns has changed [k], [x],
    [Pk], [eddy_mu] only at cells that own a face of a wall boundary of the
    model's field: at every other cell the four fields hold what they held
    before. *)
Theorem KX_setWallEddyMu_only_wall_cells U_fIndex bcs (c : nat) : forall (m m' : KX_Model),
  KX_setWallEddyMu mesh calcX U_fIndex bcs m = Done m' ->
  ~ wall_owner mesh U_fIndex bcs c ->
  same_at c m m'.
Proof.
  unfold KX_setWallEddyMu.
  induction bcs as [|bbc bcs IH]; intros m m' Hrun Hnot; cbn in Hrun.
  - injection Hrun as <-. apply same_at_refl.
  - apply bind_Done_inv in Hrun as (m1 & Hbbc & Hrest).
    eapply same_at_trans.
    2:{ apply IH; [exact Hrest|]. intros (b & f & Hb & Hw & Hi & Hf & Ho).
        apply Hnot. exists b, f. repeat split; try assumption. now right. }
    destruct (isWall bbc) eqn:Hw; cbn in Hbbc;
      [|injection Hbbc as <-; apply same_at_refl].
    case_bool_decide as Hi; [|injection Hbbc as <-; apply same_at_refl].
    case_decide; [|injection Hbbc as <-; apply same_at_refl].
    eapply wall_faces_loop_same_at; [exact Hbbc|].
    intros f Hf Ho. apply Hnot. exists bbc, f.
    repeat split; try assumption. now left.
Qed.

Lemma face_in_range_same_frame (m m' : KX_Model) f :
  same_frame m m' -> face_in_range mesh m f -> face_in_range mesh m' f.
Proof.
  intros (B & _ & _ & _ & Lk & Lx & LPk & Lemu)
         (c1 & c2 & H0 & Ho & Hn & HfN & H1 & H2 & HU1 & HU2 & Hk & Hx & HPk & Hemu).
  exists c1, c2. rewrite B, Lk, Lx, LPk, Lemu. repeat split; assumption.
Qed.

(** With every subscript in range and a wall model chosen, the wall
    function returns. *)
Lemma applyWallFunction_returns f law (m : KX_Model) :
  face_in_range mesh m f -> wallModel (eddy m) <> NONE ->
  exists m', applyWallFunction mesh calcX f law m = Done m'.
Proof.
  intros (c1 & c2 & H0 & Ho & Hn & HfN & H1 & H2 & HU1 & HU2 & Hk & Hx & HPk & Hemu) Hw.
  destruct (lookup_lt_is_Some_2 _ _ HfN) as [n_f Hn_f].
  destruct (lookup_lt_is_Some_2 _ _ H1) as [x1 Hx1].
  destruct (lookup_lt_is_Some_2 _ _ H2) as [x2 Hx2].
  destruct (lookup_lt_is_Some_2 _ _ HU1) as [u1 Hu1].
  destruct (lookup_lt_is_Some_2 _ _ HU2) as [u2 Hu2].
  destruct (lookup_lt_is_Some_2 _ _ Hk) as [k1 Hk1].
  rewrite <- (Z2Nat.id f) by exact H0.
  unfold applyWallFunction.
  rewrite (subscript_lookup _ _ _ Ho); cbn.
  rewrite (subscript_lookup _ _ _ Hn); cbn.
  rewrite (subscript_lookup _ _ _ Hn_f); cbn.
  rewrite (subscript_lookup _ _ _ Hx1); cbn.
  rewrite (subscript_lookup _ _ _ Hx2); cbn.
  unfold calc_ustar.
  destruct (wallModel (eddy m)) eqn:Hwm; [contradiction| |].
  - rewrite (subscript_lookup _ _ _ Hu1); cbn.
    rewrite (assign_lookup (k m)) by exact Hk; cbn.
    rewrite (assign_lookup (x m)) by exact Hx; cbn.
    rewrite (assign_lookup (eddy_mu (eddy m))) by exact Hemu; cbn.
    rewrite Hwm. eauto.
  - rewrite (subscript_lookup _ _ _ Hk1); cbn.
    rewrite (assign_lookup (x m)) by exact Hx; cbn.
    rewrite (assign_lookup (eddy_mu (eddy m))) by exact Hemu; cbn.
    rewrite Hwm.
    rewrite (subscript_lookup _ _ _ Hu2); cbn.
    rewrite (subscript_lookup _ _ _ Hu1); cbn.
    rewrite (subscript_lookup (<[c1:=_]> _) c1 _ (list_lookup_insert_eq _ _ _ Hemu)); cbn.
    rewrite (assign_lookup (Pk m)) by exact HPk; cbn.
    eauto.
Qed.

Lemma wall_faces_loop_returns faces law : forall (m : KX_Model),
  wallModel (eddy m) <> NONE ->
  (forall f, f ∈ faces -> face_in_range mesh m f) ->
  exists m', wall_faces_loop _ (applyWallFunction mesh calcX) faces law m = Done m'
             /\ same_frame m m'.
Proof.
  induction faces as [|f faces IH]; intros m Hw Hin; cbn.
  - exists m. split; [reflexivity | apply same_frame_refl].
  - destruct (applyWallFunction_returns f law m (Hin f ltac:(now left)) Hw)
      as (m1 & Hstep).
    pose proof Hstep as Hinv.
    apply applyWallFunction_Done in Hinv as (_ & _ & Hf & _).
    rewrite Hstep. cbn.
    destruct (IH m1) as (m' & Hrest & Hf').
    + destruct Hf as (_ & _ & -> & _). exact Hw.
    + intros f' Hf'. eapply face_in_range_same_frame; [exact Hf|].
      apply Hin. now right.
    + exists m'. split; [exact Hrest|]. eapply same_frame_trans; eassumption.
Qed.

(** X11. If a wall model is chosen ([STANDARD] or [LAUNDER]) and every
    face of every wall boundary of the model's field is in range for the
    mesh arrays and the model's fields, the sweep of [setWallEddyMu]
    returns: no wall function of the sweep makes an out-of-range access,
    although each one rewrites the fields the next one reads. *)
Theorem KX_setWallEddyMu_returns U_fIndex bcs : forall (m : KX_Model),
  wallModel (eddy m) <> NONE ->
  (forall bbc f, bbc ∈ bcs -> isWall bbc = true -> fIndex bbc = U_fIndex ->
     f ∈ bdry bbc -> face_in_range mesh m f) ->
  exists m', KX_setWallEddyMu mesh calcX U_fIndex bcs m = Done m'.
Proof.
  unfold KX_setWallEddyMu.
  induction bcs as [|bbc bcs IH]; intros m Hw Hin; cbn.
  - eauto.
  - assert (Hfirst : exists m1,
      (if isWall bbc && bool_decide (fIndex bbc = U_fIndex)
       then if decide (size (bdry bbc) <> 0)
            then wall_faces_loop _ (applyWallFunction mesh calcX) (bdry bbc) (low bbc) m
            else mret m
       else mret m) = Done m1 /\ same_frame m m1).
    { destruct (isWall bbc) eqn:Hwall; cbn;
        [|exists m; split; [reflexivity | apply same_frame_refl]].
      case_bool_decide as Hi;
        [|exists m; split; [reflexivity | apply same_frame_refl]].
      case_decide; [|exists m; split; [reflexivity | apply same_frame_refl]].
      apply wall_faces_loop_returns; [exact Hw|].
      intros f Hf. apply (Hin bbc f); auto. now left. }
    destruct Hfirst as (m1 & -> & Hf). cbn.
    apply IH.
    + destruct Hf as (_ & _ & -> & _). exact Hw.
    + intros b f Hb Hwall Hi Hfb. eapply face_in_range_same_frame; [exact Hf|].
      apply (Hin b f); auto. now right.
Qed.

End KX.

Lemma setWallEddyMu_skips_non_walls_witness :
  KX_setWallEddyMu (arith := Z_Arith) sample_mesh sample_calcX 3 sample_boundaries
    (sample_model NONE) = Done (sample_model NONE).
Proof.
  unfold KX_setWallEddyMu.
  apply (setWallEddyMu_skips_non_walls _
           (applyWallFunction (arith := Z_Arith) sample_mesh sample_calcX)
           3 sample_boundaries (sample_model NONE)).
  intros bbc Hbbc. unfold sample_boundaries in Hbbc.
  apply elem_of_cons in Hbbc as [-> | Hbbc]; [left; reflexivity|].
  apply list_elem_of_singleton in Hbbc as ->. right; left. cbn. lia.
Defined.

Lemma applyWallFunction_touches_owner_only_witness :
  exists m',
    applyWallFunction (arith := Z_Arith) sample_mesh sample_calcX 0 sample_low
      (sample_model LAUNDER) = Done m'
    /\ same_frame (sample_model LAUNDER) m'
    /\ same_at 1 (sample_model LAUNDER) m'.
Proof.
  eexists. split; [reflexivity|].
  destruct (applyWallFunction_touches_owner_only (arith := Z_Arith) sample_mesh
              sample_calcX 0 sample_low (sample_model LAUNDER) _ eq_refl)
    as (_ & Hf & c1 & Ho & Hat).
  split; [exact Hf|]. apply Hat. intros Heq. subst c1.
  vm_compute in Ho. discriminate Ho.
Defined.

Lemma KX_setWallEddyMu_frame_witness :
  exists m',
    KX_setWallEddyMu (arith := Z_Arith) sample_mesh sample_calcX 7 sample_boundaries
      (sample_model LAUNDER) = Done m'
    /\ same_frame (sample_model LAUNDER) m'
    /\ k m' = [4; 4].
Proof.
  eexists. split; [reflexivity|].
  destruct (KX_setWallEddyMu_frame (arith := Z_Arith) sample_mesh sample_calcX 7
              sample_boundaries (sample_model LAUNDER) _ eq_refl) as (Hf & Hk & _).
  split; [exact Hf | exact (Hk eq_refl)].
Defined.

Lemma KX_setWallEddyMu_only_wall_cells_witness :
  exists m',
    KX_setWallEddyMu (arith := Z_Arith) sample_mesh sample_calcX 7 sample_boundaries
      (sample_model LAUNDER) = Done m'
    /\ same_at 1 (sample_model LAUNDER) m'.
Proof.
  eexists. split; [reflexivity|].
  apply (KX_setWallEddyMu_only_wall_cells (arith := Z_Arith) sample_mesh sample_calcX
           7 sample_boundaries 1 (sample_model LAUNDER) _ eq_refl).
  intros (bbc & f & Hbbc & Hw & Hi & Hf & Ho).
  unfold sample_boundaries in Hbbc.
  apply elem_of_cons in Hbbc as [-> | Hbbc]; [discriminate Hw|].
  apply list_elem_of_singleton in Hbbc as ->. cbn in Hf.
  apply list_elem_of_singleton in Hf as ->. vm_compute in Ho. discriminate Ho.
Defined.

Lemma KX_setWallEddyMu_returns_witness :
  exists m',
    KX_setWallEddyMu (arith := Z_Arith) sample_mesh sample_calcX 7 sample_boundaries
      (sample_model STANDARD) = Done m'.
Proof.
  apply (KX_setWallEddyMu_returns (arith := Z_Arith) sample_mesh sample_calcX 7
           sample_boundaries (sample_model STANDARD)).
  - discriminate.
  - intros bbc f Hbbc Hw Hi Hf. unfold sample_boundaries in Hbbc.
    apply elem_of_cons in Hbbc as [-> | Hbbc]; [discriminate Hw|].
    apply list_elem_of_singleton in Hbbc as ->. cbn in Hf.
    apply list_elem_of_singleton in Hf as ->.
    exists 0%nat, 1%nat. cbn. repeat split; try lia; reflexivity.
Defined.

End WallLoopFacts.
